(** * TTDB: a timestamped key/value store with nested transactions

    A shallow embedding of [TTDB.py] (the versioned table [TTDBTable], the
    nested transaction [TTDBTransaction] and the session manager [TTDB])
    together with the properties of the engine that the specification
    states.

    Conventions of the embedding.
    - A [datetime] stamp is an integer number of microseconds ([Z]); the
      wall clock is an input of every operation that calls
      [datetime.datetime.now()].
    - A Python dictionary is a [gmap]; the loops over [items()] and
      [keys()] only do per-key work, so the iteration order is irrelevant.
    - A table value is [option string] ([None] is Python's [None], the
      marker written by UNSET); an index value is an integer count.
    - Mutation is explicit state passing.  The [parent] reference of a
      table is kept positionally: an operation that follows it receives
      the chain of enclosing tables and returns the updated chain, so the
      aliasing of the root table by every session is preserved.
    - A result of type [option] is [None] exactly when Python raises an
      uncaught exception (the server process dies).
    - The readings of the clock that one operation makes (the two of
      [purge_entries], the stamps of a new transaction and of its table)
      are identified: every step of the server is given one reading. *)

From stdpp Require Import base option list gmap strings pretty sorting.
From Stdlib Require Import ZArith Lia Ascii.

Local Open Scope Z_scope.

(** ** Sequential loops that may raise *)

Fixpoint for_each {A S : Type} (f : S → A → option S) (l : list A) (s : S)
  : option S :=
  match l with
  | [] => Some s
  | x :: l' => s' ← f s x; for_each f l' s'
  end.

(** ** Buckets: [[(value, write_stamp), ...], read_stamp] *)

Record bucket (V : Type) : Type := Bucket {
  items : list (V * Z);
  read_stamp : Z
}.
Arguments Bucket {V} _ _.
Arguments items {V} _.
Arguments read_stamp {V} _.

Module TTDBTable.

(** The [for i in range(len(items))] loop of [__insert]: [i] ends as the
    index of the first entry whose stamp is later than the new one
    ([break]), or as [len(items)] when the loop runs to its end (the last
    [i += 1]). *)
Fixpoint scan_position {V} (its : list (V * Z)) (stamp : Z) (i : nat) : nat :=
  match its with
  | [] => i
  | it :: rest => if it.2 >? stamp then i else scan_position rest stamp (S i)
  end.

(** With an empty list the loop body never runs and [i] is unbound: the
    slices that follow raise. *)
Definition insert_position {V} (its : list (V * Z)) (stamp : Z) : option nat :=
  match its with
  | [] => None
  | _ => Some (scan_position its stamp 0)
  end.

Definition __insert {V} (autopurge : bool) (dictionary : gmap string (bucket V))
    (key : string) (item : V * Z) : option (gmap string (bucket V)) :=
  match dictionary !! key with
  | None => Some (<[key := Bucket [item] item.2]> dictionary)
  | Some b =>
      i ← insert_position (items b) item.2;
      if autopurge
      then Some (<[key := Bucket (item :: drop i (items b)) item.2]> dictionary)
      else Some (<[key := Bucket (take i (items b) ++ item :: drop i (items b))
                                  item.2]> dictionary)
  end.

(** The [for item in items] loop of [__read_item]. *)
Fixpoint scan_items {V} (its : list (V * Z)) (break_time : Z)
    (out_item : option (V * Z)) : option (V * Z) :=
  match its with
  | [] => out_item
  | item :: rest =>
      if item.2 >? break_time then out_item
      else scan_items rest break_time (Some item)
  end.

Definition __read_item {V} (dictionary : gmap string (bucket V)) (key : string)
    (break_time : Z) : option (V * Z) * gmap string (bucket V) :=
  match dictionary !! key with
  | None => (None, dictionary)
  | Some b =>
      (scan_items (items b) break_time None,
       <[key := Bucket (items b) break_time]> dictionary)
  end.

(** The table object.  [parent] is positional (see the header). *)
Record t : Type := Build {
  table : gmap string (bucket (option string));
  index : gmap string (bucket Z);
  purge_stamp : Z;
  purge_period : Z;
  autopurge : bool
}.

Definition set_table (self : t) (tb : gmap string (bucket (option string))) : t :=
  Build tb (index self) (purge_stamp self) (purge_period self) (autopurge self).
Definition set_index (self : t) (ix : gmap string (bucket Z)) : t :=
  Build (table self) ix (purge_stamp self) (purge_period self) (autopurge self).
Definition set_purge_stamp (self : t) (now : Z) : t :=
  Build (table self) (index self) now (purge_period self) (autopurge self).

(** [TTDBTable(parent, autopurge, purge_period)]: [autopurge] defaults to
    [parent is not None]. *)
Definition init (has_parent : bool) (autopurge : option bool) (purge_period : Z)
    (now : Z) : t :=
  Build ∅ ∅ now purge_period (default has_parent autopurge).

(** ** Validation and application of [__update] *)

(** One validation loop: [return False] as soon as a key of [theirs] is
    held by [mine] with a later read stamp than the passed bucket's
    second component. *)
Definition conflict {V} (mine theirs : gmap string (bucket V)) : bool :=
  existsb (λ kv, match mine !! kv.1 with
                 | Some b => read_stamp b >? read_stamp kv.2
                 | None => false
                 end) (map_to_list theirs).

Definition insert_values {V} (autopurge : bool) (key : string)
    (dictionary : gmap string (bucket V)) (values : list (V * Z))
  : option (gmap string (bucket V)) :=
  for_each (λ d value, __insert autopurge d key value) values dictionary.

Definition insert_buckets {V} (autopurge : bool)
    (dictionary other : gmap string (bucket V))
  : option (gmap string (bucket V)) :=
  for_each (λ d kv, insert_values autopurge kv.1 d (items kv.2))
           (map_to_list other) dictionary.

Definition __update (self : t) (table' : gmap string (bucket (option string)))
    (index' : gmap string (bucket Z)) : option (bool * t) :=
  if conflict (table self) table' then Some (false, self)
  else if conflict (index self) index' then Some (false, self)
  else
    tb ← insert_buckets (autopurge self) (table self) table';
    ix ← insert_buckets (autopurge self) (index self) index';
    Some (true, set_index (set_table self tb) ix).

(** ** Reads with fall-through to the parents *)

Fixpoint read_value (self : t) (parents : list t) (key : string) (time : Z)
  : option string * t * list t :=
  let '(return_pair, tb) := __read_item (table self) key time in
  match return_pair with
  | None =>
      match parents with
      | [] => (None, set_table self tb, [])
      | p :: ps =>
          let '(v, p', ps') := read_value p ps key time in
          (v, set_table self tb, p' :: ps')
      end
  | Some rp => (rp.1, set_table self tb, parents)
  end.

Fixpoint read_index (self : t) (parents : list t) (value : string) (time : Z)
  : Z * t * list t :=
  let '(return_pair, ix) := __read_item (index self) value time in
  match return_pair with
  | None =>
      match parents with
      | [] => (0, set_index self ix, [])
      | p :: ps =>
          let '(n, p', ps') := read_index p ps value time in
          (n, set_index self ix, p' :: ps')
      end
  | Some rp => (rp.1, set_index self ix, parents)
  end.

(** One of the two index adjustments of [write_value]. *)
Definition adjust_index (self : t) (parents : list t) (value : string)
    (delta : Z) (time : Z) : option (t * list t) :=
  let '(old_index, self1, parents1) := read_index self parents value time in
  ix ← __insert (autopurge self1) (index self1) value (old_index + delta, time);
  Some (set_index self1 ix, parents1).

Definition write_value (self : t) (parents : list t) (key : string)
    (value : option string) (time : Z) : option (t * list t) :=
  let '(old_value, self1, parents1) := read_value self parents key time in
  tb ← __insert (autopurge self1) (table self1) key (value, time);
  let self2 := set_table self1 tb in
  '(self3, parents3) ←
    match old_value with
    | Some old =>
        if decide (old_value ≠ value)
        then adjust_index self2 parents1 old (-1) time
        else Some (self2, parents1)
    | None => Some (self2, parents1)
    end;
  match value with
  | Some new =>
      if decide (old_value ≠ value)
      then adjust_index self3 parents3 new 1 time
      else Some (self3, parents3)
  | None => Some (self3, parents3)
  end.

(** [commit]: merge into the parent, or [False] without one. *)
Definition commit (self : t) (parent : option t) : option (bool * option t) :=
  match parent with
  | Some p =>
      '(ok, p') ← __update p (table self) (index self);
      Some (ok, Some p')
  | None => Some (false, None)
  end.

(** ** Purge *)

(** The retention rule for a bucket that is not a singleton: keep the
    entries written after [time], or [values[-1:]] when there are none. *)
Definition retain {V} (time : Z) (b : bucket V) : bucket V :=
  let values := items b in
  let out_values := filter (λ value : V * Z, time < value.2) values in
  if (0 <? length out_values)%nat
  then Bucket out_values (read_stamp b)
  else Bucket (drop (length values - 1) values) (read_stamp b).

(** What the loop over [self.table.keys()] does to one bucket; [None] is
    [del self.table[key]]. *)
Definition purge_table_bucket (time : Z) (b : bucket (option string))
  : option (bucket (option string)) :=
  match items b with
  | [(Some _, _)] => Some b
  | [(None, _)] => None
  | _ => Some (retain time b)
  end.

(** The same for [self.index.keys()]: a singleton survives when its
    count is positive; an empty list is left alone. *)
Definition purge_index_bucket (time : Z) (b : bucket Z) : option (bucket Z) :=
  match items b with
  | [(n, _)] => if n >? 0 then Some b else None
  | [] => Some b
  | _ => Some (retain time b)
  end.

(** [purge_period] is in seconds, stamps are in microseconds. *)
Definition purge_entries (self : t) (time : Z) (now : Z) : t :=
  if now - purge_stamp self <? purge_period self * 1000000 then self
  else Build (omap (purge_table_bucket time) (table self))
             (omap (purge_index_bucket time) (index self))
             now (purge_period self) (autopurge self).

End TTDBTable.

(** ** Transactions *)

Module TTDBTransaction.

#[local] Unset Elimination Schemes.
Inductive t : Type := Build {
  timestamp : Z;
  ttable : TTDBTable.t;
  subtransaction : option t
}.
#[local] Set Elimination Schemes.

(** [TTDBTransaction(parent, timestamp)]: a missing [timestamp] is read
    from the clock; the table has a parent, hence [autopurge]. *)
Definition init (timestamp : option Z) (now : Z) : t :=
  Build (default now timestamp) (TTDBTable.init true None 20 now) None.

Fixpoint begin (self : t) (now : Z) : t :=
  match subtransaction self with
  | Some sub => Build (timestamp self) (ttable self) (Some (begin sub now))
  | None =>
      Build (timestamp self) (ttable self) (Some (init (Some (timestamp self)) now))
  end.

(** [None] is Python's [None]: the caller drops the scope. *)
Fixpoint rollback (self : t) : option t :=
  match subtransaction self with
  | None => None
  | Some sub => Some (Build (timestamp self) (ttable self) (rollback sub))
  end.

(** [self.ttable.commit()] for a table whose parent is [parent]. *)
Definition commit_table (tab parent : TTDBTable.t) : option (bool * TTDBTable.t) :=
  '(ok, p) ← TTDBTable.commit tab (Some parent);
  Some (ok, default parent p).

(** [commit] returns the verdict and the parent table as the commit left
    it.  The child commits into [self.ttable] first. *)
Fixpoint commit (self : t) (parent : TTDBTable.t)
  : option (bool * TTDBTable.t) :=
  match subtransaction self with
  | Some sub =>
      '(success, tab) ← commit sub (ttable self);
      if success : bool then commit_table tab parent else Some (false, parent)
  | None => commit_table (ttable self) parent
  end.

(** [set] and [unset] differ only in the value they write. *)
Fixpoint write (self : t) (parents : list TTDBTable.t) (variable : string)
    (value : option string) : option (t * list TTDBTable.t) :=
  match subtransaction self with
  | Some sub =>
      '(sub', chain) ← write sub (ttable self :: parents) variable value;
      Some (Build (timestamp self) (hd (ttable self) chain) (Some sub'),
            tail chain)
  | None =>
      '(tab, parents') ← TTDBTable.write_value (ttable self) parents variable
                           value (timestamp self);
      Some (Build (timestamp self) tab None, parents')
  end.

Definition set (self : t) (parents : list TTDBTable.t) (variable value : string) :=
  write self parents variable (Some value).

Definition unset (self : t) (parents : list TTDBTable.t) (variable : string) :=
  write self parents variable None.

Fixpoint get (self : t) (parents : list TTDBTable.t) (variable : string)
  : option string * t * list TTDBTable.t :=
  match subtransaction self with
  | Some sub =>
      let '(v, sub', chain) := get sub (ttable self :: parents) variable in
      (v, Build (timestamp self) (hd (ttable self) chain) (Some sub'), tail chain)
  | None =>
      let '(v, tab, parents') :=
        TTDBTable.read_value (ttable self) parents variable (timestamp self) in
      (v, Build (timestamp self) tab None, parents')
  end.

Fixpoint numequalto (self : t) (parents : list TTDBTable.t) (value : string)
  : Z * t * list TTDBTable.t :=
  match subtransaction self with
  | Some sub =>
      let '(n, sub', chain) := numequalto sub (ttable self :: parents) value in
      (n, Build (timestamp self) (hd (ttable self) chain) (Some sub'), tail chain)
  | None =>
      let '(n, tab, parents') :=
        TTDBTable.read_index (ttable self) parents value (timestamp self) in
      (n, Build (timestamp self) tab None, parents')
  end.

End TTDBTransaction.

(** ** The session manager and the command loop *)

(** [min(l)]; Python raises on an empty list. *)
Definition min_list (l : list Z) : option Z :=
  match l with
  | [] => None
  | x :: l' => Some (foldl Z.min x l')
  end.

(** [data.split('|')] *)
Fixpoint split_go (sep : Ascii.ascii) (cur s : string) : list string :=
  match s with
  | EmptyString => [String.rev cur]
  | String a s' =>
      if Ascii.eqb a sep then String.rev cur :: split_go sep EmptyString s'
      else split_go sep (String a cur) s'
  end.
Definition split (sep : Ascii.ascii) (s : string) : list string :=
  split_go sep EmptyString s.

Module TTDB.

(** Connections are identified by their file descriptor. *)
Record t : Type := Build {
  ttable : TTDBTable.t;
  transactions : gmap nat TTDBTransaction.t;
  purge_period : Z
}.

Definition init (purge_period now : Z) : t :=
  Build (TTDBTable.init false (None : option bool) purge_period now) ∅ purge_period.

Definition timestamps (self : t) : list Z :=
  (λ kx, TTDBTransaction.timestamp kx.2) <$> map_to_list (transactions self).

(** Every handler returns the new state and what it sent to the calling
    connection, one element per [sendall], in order. *)
Definition begin (self : t) (connection : nat) (now : Z) : t * list string :=
  match transactions self !! connection with
  | Some x =>
      (Build (ttable self)
             (<[connection := TTDBTransaction.begin x now]> (transactions self))
             (purge_period self),
       ["success"])
  | None =>
      (Build (ttable self)
             (<[connection := TTDBTransaction.init None now]> (transactions self))
             (purge_period self),
       ["success"])
  end.

Definition commit (self : t) (connection : nat) : option (t * list string) :=
  match transactions self !! connection with
  | Some x =>
      m ← min_list (timestamps self);
      if TTDBTransaction.timestamp x >? m
      then Some (Build (ttable self) (delete connection (transactions self))
                       (purge_period self),
                 ["Conflicting lock. Aborting transaction."])
      else
        '(success, root) ← TTDBTransaction.commit x (ttable self);
        Some (Build root (delete connection (transactions self))
                    (purge_period self),
              [if success : bool then "success"
               else "Commit failed. Rolling back."])
  | None => Some (self, ["No transaction to commit."])
  end.

Definition rollback (self : t) (connection : nat) : t * list string :=
  match transactions self !! connection with
  | Some x =>
      (Build (ttable self)
             (match TTDBTransaction.rollback x with
              | None => delete connection (transactions self)
              | Some x' => <[connection := x']> (transactions self)
              end)
             (purge_period self),
       ["success"])
  | None => (self, ["INVALID ROLLBACK"])
  end.

(** [set] and [unset]: the three-way branch, then the unconditional
    [connection.sendall('success')] that follows it. *)
Definition write (self : t) (variable : string) (value : option string)
    (abort : string) (connection : nat) (now : Z) : option (t * list string) :=
  '(self', sent) ←
    match transactions self !! connection with
    | Some x =>
        '(x', chain) ← TTDBTransaction.write x [ttable self] variable value;
        Some (Build (hd (ttable self) chain)
                    (<[connection := x']> (transactions self))
                    (purge_period self), [])
    | None =>
        if (0 <? size (transactions self))%nat
        then Some (self, [abort])
        else
          '(root, _) ← TTDBTable.write_value (ttable self) [] variable value now;
          Some (Build root (transactions self) (purge_period self), [])
    end;
  Some (self', sent ++ ["success"]).

Definition set (self : t) (variable value : string) (connection : nat) (now : Z) :=
  write self variable (Some value) "Conflicting lock. Aborting write." connection now.

Definition unset (self : t) (variable : string) (connection : nat) (now : Z) :=
  write self variable None "Aborting write." connection now.

Definition get (self : t) (variable : string) (connection : nat) (now : Z)
  : t * list string :=
  let '(value, self') :=
    match transactions self !! connection with
    | Some x =>
        let '(v, x', chain) := TTDBTransaction.get x [ttable self] variable in
        (v, Build (hd (ttable self) chain)
                  (<[connection := x']> (transactions self)) (purge_period self))
    | None =>
        let '(v, root, _) := TTDBTable.read_value (ttable self) [] variable now in
        (v, Build root (transactions self) (purge_period self))
    end in
  (self', [default "NULL" value]).

Definition numequalto (self : t) (value : string) (connection : nat) (now : Z)
  : t * list string :=
  let '(num, self') :=
    match transactions self !! connection with
    | Some x =>
        let '(n, x', chain) := TTDBTransaction.numequalto x [ttable self] value in
        (n, Build (hd (ttable self) chain)
                  (<[connection := x']> (transactions self)) (purge_period self))
    | None =>
        let '(n, root, _) := TTDBTable.read_index (ttable self) [] value now in
        (n, Build root (transactions self) (purge_period self))
    end in
  (self', [pretty num]).

(** The [elif] chain of [run] on one tokenised command; [datum[0]] raises
    on an empty token list, and a command that matches no branch is
    ignored without a reply. *)
Definition dispatch (self : t) (datum : list string) (s : nat) (now : Z)
  : option (t * list string) :=
  match datum with
  | [] => None
  | verb :: _ =>
      let on (name : string) (n : nat) :=
        bool_decide (verb = name) && bool_decide (length datum = n) in
      if on "SET" 3%nat then
        set self (datum !!! 1%nat) (datum !!! 2%nat) s now
      else if on "GET" 2%nat then Some (get self (datum !!! 1%nat) s now)
      else if on "UNSET" 2%nat then unset self (datum !!! 1%nat) s now
      else if on "NUMEQUALTO" 2%nat then
        Some (numequalto self (datum !!! 1%nat) s now)
      else if on "BEGIN" 1%nat then Some (begin self s now)
      else if on "ROLLBACK" 1%nat then Some (rollback self s)
      else if on "COMMIT" 1%nat then commit self s
      else if on "RESET" 1%nat then
        Some (Build (TTDBTable.init false None 20 now) ∅ (purge_period self),
              ["success"])
      else if on "DEBUG" 1%nat then Some (self, [])
      else Some (self, [])
  end.

(** The body of [for datum in data], for one piece of [data.split('|')]:
    an empty piece is skipped.  Each piece is handled with its own
    reading of the clock. *)
Definition handle (self : t) (datum : string) (s : nat) (now : Z)
  : option (t * list string) :=
  if bool_decide (String.length datum = 0%nat) then Some (self, [])
  else dispatch self (String.words datum) s now.

(** [recv] returned nothing: the connection is closed. *)
Definition close (self : t) (s : nat) : t :=
  Build (ttable self) (delete s (transactions self)) (purge_period self).

(** The purge at the end of a round of the loop. *)
Definition purge (self : t) (now : Z) : option t :=
  horizon ← min_list (timestamps self ++ [now]);
  Some (Build (TTDBTable.purge_entries (ttable self) horizon now)
              (transactions self) (purge_period self)).

End TTDB.

(** ** The client's BEGIN *)

(** [str.upper()] on ASCII text. *)
Definition upper_char (c : Ascii.ascii) : Ascii.ascii :=
  let n := Ascii.nat_of_ascii c in
  if (97 <=? n)%nat && (n <=? 122)%nat then Ascii.ascii_of_nat (n - 32) else c.

Fixpoint upper (s : string) : string :=
  match s with
  | EmptyString => EmptyString
  | String c s' => String (upper_char c) (upper s')
  end.

Module TTDBClient.

(** What [do_begin] sends before it waits for the reply; the main loop
    calls it with ['RW'] for a bare BEGIN and with the given mode for
    [BEGIN RW] and [BEGIN RO]. *)
Definition do_begin (transaction_type : string) : option string :=
  if bool_decide (upper transaction_type = "RW") then Some "BEGIN RW |"
  else if bool_decide (upper transaction_type = "RO") then Some "BEGIN RO |"
  else None.

End TTDBClient.

(** ** Executions of the server *)

(** What the loop of [run] can do in one step: handle one piece of
    received data, notice a closed connection, or purge at the end of a
    round.  Every step comes with the reading of the clock it uses. *)
Inductive event : Type :=
  | Datum (s : nat) (datum : string)
  | Close (s : nat)
  | Purge.

Definition step (self : TTDB.t) (ev : event) (now : Z) : option TTDB.t :=
  match ev with
  | Datum s datum => fst <$> TTDB.handle self datum s now
  | Close s => Some (TTDB.close self s)
  | Purge => TTDB.purge self now
  end.

Definition run (trace : list (event * Z)) (self : TTDB.t) : option TTDB.t :=
  for_each (λ st e, step st e.1 e.2) trace self.

(** * Auxiliary definitions *)

Import TTDBTable.

(** The effect of [__insert] on the bucket of its key. *)
Definition put {V} (autopurge : bool) (ob : option (bucket V)) (item : V * Z)
  : option (bucket V) :=
  match ob with
  | None => Some (Bucket [item] item.2)
  | Some b =>
      i ← insert_position (items b) item.2;
      Some (Bucket (if autopurge then item :: drop i (items b)
                    else take i (items b) ++ item :: drop i (items b)) item.2)
  end.

(** What the inner loop of the merge does to the bucket of its key. *)
Definition put_values {V} (ap : bool) (ob : option (bucket V)) (values : list (V * Z))
  : option (option (bucket V)) :=
  for_each (λ ob value, Some <$> put ap ob value) values ob.

(** ** Well-formed tables *)

(** Every bucket holds at least one entry: the condition under which
    [__insert] does not raise. *)
Definition filled {V} (d : gmap string (bucket V)) : Prop :=
  map_Forall (λ _ b, (0 < length (items b))%nat) d.

Definition Filled (tab : TTDBTable.t) : Prop :=
  filled (table tab) ∧ filled (index tab).

(** The tables of a transaction, outermost first. *)
Fixpoint scopes (x : TTDBTransaction.t) : list TTDBTable.t :=
  TTDBTransaction.ttable x ::
  match TTDBTransaction.subtransaction x with
  | Some sub => scopes sub
  | None => []
  end.

(** The entries of a bucket in the order of their write stamps, with and
    without ties. *)
Definition ascending {V} (b : bucket V) : Prop :=
  StronglySorted (λ x y : V * Z, x.2 ≤ y.2) (items b).

Definition increasing {V} (b : bucket V) : Prop :=
  StronglySorted (λ x y : V * Z, x.2 < y.2) (items b).

(** The reads at [t] that a purge at [horizon] cannot disturb in a bucket:
    either nothing was written after the horizon, or something was, at
    [t] or before. *)
Definition settled {V} (horizon t : Z) (b : bucket V) : Prop :=
  Forall (λ it : V * Z, it.2 ≤ horizon) (items b)
  ∨ Exists (λ it : V * Z, horizon < it.2 ≤ t) (items b).

(** The pure content of [read_value] and [read_index] on a table without
    a parent. *)
Definition value_at (self : TTDBTable.t) (key : string) (t : Z) : option string :=
  (read_value self [] key t).1.1.

Definition count_at (self : TTDBTable.t) (value : string) (t : Z) : Z :=
  (read_index self [] value t).1.1.

(** No count below zero in an index. *)
Definition counts_nonnegative (ix : gmap string (bucket Z)) : Prop :=
  map_Forall (λ _ b, Forall (λ it : Z * Z, 0 ≤ it.1) (items b)) ix.

(** ** The index as a count of keys *)

(** The entry sequences of a dictionary, without the read stamps. *)
Definition entries {V} (d : gmap string (bucket V)) : gmap string (list (V * Z)) :=
  items <$> d.

(** No entry of the dictionary was written after [now]. *)
Definition written_by {V} (now : Z) (d : gmap string (bucket V)) : Prop :=
  map_Forall (λ _ b, Forall (λ it : V * Z, it.2 ≤ now) (items b)) d.



(** What [write_value] adds to the count of [w] when it replaces [old] by
    [new]. *)
Definition delta (old new : option string) (w : string) : Z :=
  (if decide (new = Some w ∧ old ≠ new) then 1 else 0)
  - (if decide (old = Some w ∧ old ≠ new) then 1 else 0).

(** The operations of a session without a transaction on the root, each
    with the reading of the clock it is given. *)
Inductive root_op : Type :=
  | Write (key : string) (value : option string)
  | Get (key : string)
  | Count (value : string).

Definition root_step (self : TTDBTable.t) (op : root_op) (now : Z)
  : option TTDBTable.t :=
  match op with
  | Write key value => fst <$> write_value self [] key value now
  | Get key => Some (read_value self [] key now).1.2
  | Count value => Some (read_index self [] value now).1.2
  end.

Definition root_run (ops : list (root_op * Z)) (self : TTDBTable.t)
  : option TTDBTable.t :=
  for_each (λ s o, root_step s o.1 o.2) ops self.


(** ** Scopes *)

(** A bucket of a scope opened at [T]: one entry, written at [T]. *)
Definition single_at {V} (T : Z) (b : bucket V) : Prop :=
  length (items b) = 1%nat ∧ Forall (λ it : V * Z, it.2 = T) (items b).

Definition scope_table (T : Z) (tab : TTDBTable.t) : Prop :=
  autopurge tab = true
  ∧ map_Forall (λ _ b, single_at T b) (table tab)
  ∧ map_Forall (λ _ b, single_at T b) (index tab).

(** The most recent entry of a key in a dictionary. *)
Definition latest {V} (d : gmap string (bucket V)) (k : string) : option (V * Z) :=
  b ← d !! k; last (items b).

(** The entry that a stack of scopes holds for a key: that of the
    innermost scope that has the key. *)
Fixpoint stack_entry {V} (proj : TTDBTable.t → gmap string (bucket V))
    (x : TTDBTransaction.t) (k : string) : option (V * Z) :=
  match TTDBTransaction.subtransaction x with
  | Some sub =>
      match stack_entry proj sub k with
      | Some e => Some e
      | None => latest (proj (TTDBTransaction.ttable x)) k
      end
  | None => latest (proj (TTDBTransaction.ttable x)) k
  end.

(** ** The invariant of the server *)

(** [d'] is [d] with, for some keys, one entry of stamp [now] appended. *)
Definition extends_at {V} (now : Z) (d d' : gmap string (bucket V)) : Prop :=
  ∀ k, entries d' !! k = entries d !! k
       ∨ ∃ x, entries d' !! k = Some (default [] (entries d !! k) ++ [(x, now)]).

(** Two tables that differ in read stamps and purge stamp only. *)
Definition same_entries (tab tab' : TTDBTable.t) : Prop :=
  autopurge tab' = autopurge tab
  ∧ entries (table tab') = entries (table tab)
  ∧ entries (index tab') = entries (index tab).

(** Every bucket of the table and of the index is strictly increasing in
    write stamp. *)
Definition sorted_table (tab : TTDBTable.t) : Prop :=
  map_Forall (λ _ b, increasing b) (table tab)
  ∧ map_Forall (λ _ b, increasing b) (index tab).

(** No entry of the table or of the index carries the stamp [T]. *)
Definition unused (T : Z) (tab : TTDBTable.t) : Prop :=
  map_Forall (λ _ b, Forall (λ it : option string * Z, it.2 ≠ T) (items b))
             (table tab)
  ∧ map_Forall (λ _ b, Forall (λ it : Z * Z, it.2 ≠ T) (items b)) (index tab).

(** The root: no autopurge, no empty bucket, sorted buckets, nothing
    written after [c]. *)
Definition root_ok (c : Z) (root : TTDBTable.t) : Prop :=
  autopurge root = false ∧ Filled root ∧ sorted_table root
  ∧ written_by c (table root) ∧ written_by c (index root).

(** A transaction whose scopes all carry the stamp [T]. *)
Fixpoint scoped (T : Z) (x : TTDBTransaction.t) : Prop :=
  TTDBTransaction.timestamp x = T
  ∧ scope_table T (TTDBTransaction.ttable x)
  ∧ match TTDBTransaction.subtransaction x with
    | Some sub => scoped T sub
    | None => True
    end.

(** What holds of the server when no stamp later than [c] has been
    minted. *)
Definition invariant (c : Z) (st : TTDB.t) : Prop :=
  root_ok c (TTDB.ttable st)
  ∧ (∀ s x, TTDB.transactions st !! s = Some x →
            TTDBTransaction.timestamp x ≤ c
            ∧ scoped (TTDBTransaction.timestamp x) x
            ∧ unused (TTDBTransaction.timestamp x) (TTDB.ttable st))
  ∧ (∀ s1 s2 x1 x2, s1 ≠ s2 →
       TTDB.transactions st !! s1 = Some x1 →
       TTDB.transactions st !! s2 = Some x2 →
       TTDBTransaction.timestamp x1 ≠ TTDBTransaction.timestamp x2).

(** ** Minted stamps *)

(** The commands that store the reading of the clock as a stamp: a BEGIN
    that creates the outer scope of its session, and a SET or UNSET that
    writes to the root. *)
Definition mints_tokens (self : TTDB.t) (datum : list string) (s : nat) : bool :=
  match datum with
  | [verb] =>
      bool_decide (verb = "BEGIN")
      && bool_decide (TTDB.transactions self !! s = None)
  | [verb; _] =>
      bool_decide (verb = "UNSET") && bool_decide (TTDB.transactions self = ∅)
  | [verb; _; _] =>
      bool_decide (verb = "SET") && bool_decide (TTDB.transactions self = ∅)
  | _ => false
  end.

Definition mints (self : TTDB.t) (ev : event) : bool :=
  match ev with
  | Datum s datum => mints_tokens self (String.words datum) s
  | _ => false
  end.

(** The stamps minted along an execution, in the order of their minting. *)
Fixpoint minted (trace : list (event * Z)) (self : TTDB.t) : list Z :=
  match trace with
  | [] => []
  | e :: rest =>
      (if mints self e.1 then [e.2] else [])
      ++ match step self e.1 e.2 with
         | Some self' => minted rest self'
         | None => []
         end
  end.

(** ** What a command leaves to the other sessions *)


(** ** No empty bucket *)


(** ** Characters of a string *)


(** ** The root and the live transactions *)


(** ** Concrete states *)

(** A dictionary on which a GET of ["a"] at stamp 3 follows a read at
    stamp 5. *)
Definition read_twice : gmap string (bucket (option string)) :=
  {[ "a" := Bucket [(Some "x", 1)] 5 ]}.

(** The server after a single [SET a 0] at stamp 1. *)
Definition one_key : TTDB.t :=
  TTDB.Build
    (TTDBTable.Build {[ "a" := Bucket [(Some "0", 1)] 1 ]}
                     {[ "0" := Bucket [(1, 1)] 1 ]} 0 20 false)
    ∅ 20.

(** The state in which session 1 has set ["a"] inside a transaction opened
    at stamp 2, over a root that holds ["a"] since stamp 1. *)
Definition before_commit : option TTDB.t :=
  run [(Datum 1 "SET a 0", 1); (Datum 1 "BEGIN", 2); (Datum 1 "SET a 5", 3)]
      (TTDB.init 20 0).

(** The server after session 1 has sent [BEGIN] at stamp 1. *)
Definition one_open : TTDB.t :=
  TTDB.Build (TTDBTable.init false None 20 0)
             {[ 1%nat := TTDBTransaction.init None 1 ]} 20.

(** A parent whose bucket for ["k"] was read at stamp 3, and a child that
    wrote ["k"] at stamp 1 and read it back at stamp 5. *)
Definition stale_parent : TTDBTable.t :=
  TTDBTable.Build {[ "k" := Bucket [(Some "u", 0)] 3 ]}
                  {[ "u" := Bucket [(1, 0)] 1 ]} 0 20 false.

Definition stale_child : TTDBTable.t :=
  TTDBTable.Build {[ "k" := Bucket [(Some "v", 1)] 5 ]}
                  (<[ "v" := Bucket [(1, 1)] 1 ]> {[ "u" := Bucket [(0, 1)] 1 ]})
                  0 20 true.

(** The calls of the table's public methods that lead there. *)
Definition stale_history : option (TTDBTable.t * TTDBTable.t) :=
  p1 ← fst <$> write_value (TTDBTable.init false None 20 0) [] "k" (Some "u") 0;
  '(c1, ps) ← write_value (TTDBTable.init true None 20 0) [p1] "k" (Some "v") 1;
  let p2 := (read_value (hd p1 ps) [] "k" 3).1.2 in
  let '(_, c2, ps') := read_value c1 [p2] "k" 5 in
  Some (c2, hd p2 ps').

(** Session 1 opened a transaction at stamp 2 and session 2 at stamp 4,
    over the root of [one_key]; session 2 has set ["b"]. *)
Definition later_scope : TTDBTransaction.t :=
  TTDBTransaction.Build 4
    (TTDBTable.Build {[ "b" := Bucket [(Some "0", 4)] 4 ]}
                     {[ "0" := Bucket [(2, 4)] 4 ]} 4 20 true)
    None.

Definition two_open : TTDB.t :=
  TTDB.Build
    (TTDBTable.Build {[ "a" := Bucket [(Some "0", 1)] 1 ]}
                     {[ "0" := Bucket [(1, 1)] 4 ]} 0 20 false)
    (<[ 2%nat := later_scope ]>
       {[ 1%nat := TTDBTransaction.Build 2 (TTDBTable.init true None 20 2) None ]})
    20.

(** A root in which ["a"] was set to ["x"] at stamp 1 and to ["y"] at
    stamp 10, last purged at stamp 0. *)
Definition two_versions : TTDBTable.t :=
  TTDBTable.Build
    {[ "a" := Bucket [(Some "x", 1); (Some "y", 10)] 10 ]}
    (<[ "x" := Bucket [(1, 1); (0, 10)] 10 ]> {[ "y" := Bucket [(1, 10)] 10 ]})
    0 20 false.


(** Session 1 after [SET a 0] outside a transaction, then [BEGIN] at
    stamp 2, [SET a 1], a nested [BEGIN] and [SET a 2]. *)
Definition nested_stack : TTDBTransaction.t :=
  TTDBTransaction.Build 2
    (TTDBTable.Build {[ "a" := Bucket [(Some "1", 2)] 2 ]}
       (<[ "0" := Bucket [(0, 2)] 2 ]> {[ "1" := Bucket [(1, 2)] 2 ]}) 2 20 true)
    (Some (TTDBTransaction.Build 2
       (TTDBTable.Build {[ "a" := Bucket [(Some "2", 2)] 2 ]}
          (<[ "1" := Bucket [(0, 2)] 2 ]> {[ "2" := Bucket [(1, 2)] 2 ]}) 4 20 true)
       None)).

Definition nested_state : TTDB.t :=
  TTDB.Build
    (TTDBTable.Build {[ "a" := Bucket [(Some "0", 1)] 2 ]}
                     {[ "0" := Bucket [(1, 1)] 2 ]} 0 20 false)
    {[ 1%nat := nested_stack ]} 20.

(** The execution that leads to [nested_state]. *)
Definition nested_trace : list (event * Z) :=
  [(Datum 1 "SET a 0", 1); (Datum 1 "BEGIN", 2); (Datum 1 "SET a 1", 3);
   (Datum 1 "BEGIN", 4); (Datum 1 "SET a 2", 5)].

(** Two sessions whose transactions overlap and set different keys to the
    same value. *)
Definition overlapping_trace : list (event * Z) :=
  [(Datum 1 "BEGIN", 1); (Datum 2 "BEGIN", 2); (Datum 2 "SET b 10", 3);
   (Datum 1 "SET a 10", 4); (Datum 1 "COMMIT", 5); (Datum 2 "COMMIT", 6)].


(** * Properties *)

(** ** What one bucket goes through *)

Section buckets.
Context {V : Type}.
Implicit Types (d : gmap string (bucket V)) (b : bucket V) (its : list (V * Z)).

Lemma insert_put ap d k item :
  __insert ap d k item = b' ← put ap (d !! k) item; Some (<[k := b']> d).
Proof.
  unfold __insert, put. destruct (d !! k) as [b|]; [|done].
  destruct (insert_position (items b) item.2); simpl; [|done].
  by destruct ap.
Qed.

Lemma read_item_result d k t :
  (__read_item d k t).1 = b ← d !! k; scan_items (items b) t None.
Proof. unfold __read_item. by destruct (d !! k). Qed.

Lemma read_item_state d k t :
  (__read_item d k t).2 =
  match d !! k with
  | Some b => <[k := Bucket (items b) t]> d
  | None => d
  end.
Proof. unfold __read_item. by destruct (d !! k). Qed.

Lemma read_item_lookup d k t k' :
  (__read_item d k t).2 !! k' =
  if decide (k = k') then (λ b, Bucket (items b) t) <$> d !! k else d !! k'.
Proof.
  rewrite read_item_state. destruct (d !! k) as [b|] eqn:E.
  - rewrite lookup_insert. by destruct (decide (k = k')).
  - destruct (decide (k = k')) as [<-|]; [by rewrite E|done].
Qed.

Lemma read_item_items d k t k' :
  items <$> (__read_item d k t).2 !! k' = items <$> d !! k'.
Proof.
  rewrite read_item_lookup. destruct (decide (k = k')) as [<-|]; [|done].
  by destruct (d !! k).
Qed.

Lemma scan_position_bounds its stamp i :
  (i ≤ scan_position its stamp i ≤ i + length its)%nat.
Proof.
  revert i. induction its as [|it rest IH]; intros i; simpl; [lia|].
  destruct (it.2 >? stamp); [lia|]. specialize (IH (S i)). lia.
Qed.

Lemma scan_position_all its stamp i :
  Forall (λ it, it.2 ≤ stamp) its →
  scan_position its stamp i = (i + length its)%nat.
Proof.
  intros H. revert i. induction H as [|it rest Hit _ IH]; intros i; simpl.
  - lia.
  - destruct (Z.gtb_spec it.2 stamp); [lia|]. rewrite IH. lia.
Qed.

Lemma insert_position_is_Some its stamp :
  its ≠ [] → is_Some (insert_position its stamp).
Proof. destruct its; [done|]. intros _. by eexists. Qed.

Lemma put_is_Some ap ob item :
  (∀ b, ob = Some b → items b ≠ []) → is_Some (put ap ob item).
Proof.
  destruct ob as [b|]; simpl; [|by eexists].
  intros H. destruct (insert_position_is_Some (items b) item.2) as [i ->]; [by apply H|].
  by eexists.
Qed.

Lemma put_read_stamp ap ob item b' :
  put ap ob item = Some b' → read_stamp b' = item.2.
Proof.
  destruct ob as [b|]; simpl.
  - destruct (insert_position (items b) item.2); simpl; [|done]. by intros [= <-].
  - by intros [= <-].
Qed.

Lemma put_nonempty ap ob item b' :
  put ap ob item = Some b' → items b' ≠ [].
Proof.
  destruct ob as [b|]; simpl.
  - destruct (insert_position (items b) item.2); simpl; [|done].
    intros [= <-]. simpl. destruct ap; [done|]. by destruct (take _ _).
  - by intros [= <-].
Qed.

(** Entries later than every stored stamp go to the end. *)
Lemma put_append b item :
  items b ≠ [] → Forall (λ it, it.2 ≤ item.2) (items b) →
  put false (Some b) item = Some (Bucket (items b ++ [item]) item.2).
Proof.
  intros Hne Hall. simpl. unfold insert_position.
  destruct (items b) as [|it0 rest] eqn:E; [done|].
  rewrite scan_position_all by done. simpl.
  rewrite firstn_all, skipn_all. done.
Qed.

(** In a scope every entry carries the scope's stamp, and [autopurge]
    leaves the new entry alone in its bucket. *)
Lemma put_replace b item :
  items b ≠ [] → Forall (λ it, it.2 ≤ item.2) (items b) →
  put true (Some b) item = Some (Bucket [item] item.2).
Proof.
  intros Hne Hall. simpl. unfold insert_position.
  destruct (items b) as [|it0 rest] eqn:E; [done|].
  rewrite scan_position_all by done. simpl.
  by rewrite skipn_all.
Qed.

End buckets.

(** ** Reads and read stamps *)

(** C6, the claim as stated fails: a read at stamp 3 of a bucket whose
    read stamp is 5 leaves the read stamp 3, and so does an insert at
    stamp 3, where [max(5, 3)] is 5. *)
Lemma read_stamp_not_max :
  read_stamp <$> (__read_item read_twice "a" 3).2 !! "a" = Some 3
  ∧ read_stamp <$> (__insert false read_twice "a" (Some "y", 3) ≫= (.!! "a"))
    = Some 3
  ∧ Z.max 5 3 ≠ 3.
Proof. split; [|split]; [reflexivity|reflexivity|lia]. Qed.

(** C6, as amended: a read of an existing bucket at stamp [t] (hit or
    miss) and an insert into an existing bucket at stamp [t] both leave
    the bucket's read stamp equal to [t]; this is [max(previous, t)]
    exactly when [t] is not earlier than the previous read stamp. *)
Theorem read_stamp_overwritten {V} (d : gmap string (bucket V)) (k : string)
    (t : Z) (b : bucket V) :
  d !! k = Some b →
  read_stamp <$> (__read_item d k t).2 !! k = Some t
  ∧ (∀ ap v, items b ≠ [] →
       ∃ d', __insert ap d k (v, t) = Some d'
             ∧ read_stamp <$> d' !! k = Some t)
  ∧ (t = Z.max (read_stamp b) t ↔ read_stamp b ≤ t).
Proof.
  intros Hb. split; [|split].
  - rewrite read_item_lookup, decide_True, Hb by done. done.
  - intros ap v Hne. rewrite insert_put, Hb.
    destruct (put_is_Some ap (Some b) (v, t)) as [b' Hb'].
    { by intros ? [= <-]. }
    rewrite Hb'. simpl. eexists; split; [done|].
    rewrite lookup_insert_eq. simpl. f_equal.
    by apply put_read_stamp in Hb'.
  - lia.
Qed.

Lemma read_stamp_overwritten_witness :
  read_twice !! "a" = Some (Bucket [(Some "x", 1)] 5)
  ∧ read_stamp <$> (__read_item read_twice "a" 3).2 !! "a" = Some 3.
Proof.
  split; [reflexivity|].
  exact (proj1 (read_stamp_overwritten read_twice "a" 3 _ eq_refl)).
Defined.

(** Reads of a table without a parent. *)
Lemma read_value_root self k t :
  read_value self [] k t =
  ((__read_item (table self) k t).1 ≫= fst,
   set_table self (__read_item (table self) k t).2, []).
Proof.
  simpl. destruct (__read_item (table self) k t) as [[rp|] tb]; done.
Qed.

Lemma read_index_root self v t :
  read_index self [] v t =
  (from_option fst 0 (__read_item (index self) v t).1,
   set_index self (__read_item (index self) v t).2, []).
Proof.
  simpl. destruct (__read_item (index self) v t) as [[rp|] ix]; done.
Qed.

(** C10: a read is not pure.  [__read_item] at [t] replaces the read
    stamp of an existing bucket by [t] and nothing else; so GET and
    NUMEQUALTO from a session without a transaction stamp the root's
    bucket with the clock and leave every entry sequence of the table and
    the index as it was; and such a GET by session 2 turns the COMMIT of
    session 1, which would have succeeded, into a failed one. *)
Theorem reads_overwrite_read_stamps (self : TTDB.t) (key : string)
    (connection : nat) (now : Z) :
  TTDB.transactions self !! connection = None →
  let root := TTDB.ttable self in
  let got := TTDB.ttable (TTDB.get self key connection now).1 in
  let counted := TTDB.ttable (TTDB.numequalto self key connection now).1 in
  (∀ V (d : gmap string (bucket V)) k t b,
      d !! k = Some b → (__read_item d k t).2 = <[k := Bucket (items b) t]> d)
  ∧ (∀ b, table root !! key = Some b →
          table got !! key = Some (Bucket (items b) now))
  ∧ (∀ k, items <$> table got !! k = items <$> table root !! k)
  ∧ index got = index root
  ∧ (∀ b, index root !! key = Some b →
          index counted !! key = Some (Bucket (items b) now))
  ∧ (∀ k, items <$> index counted !! k = items <$> index root !! k)
  ∧ table counted = table root
  ∧ (∃ st, before_commit = Some st
           ∧ TTDB.transactions st !! 2%nat = None
           ∧ snd <$> TTDB.commit st 1 = Some ["success"]
           ∧ snd <$> TTDB.commit (TTDB.get st "a" 2 4).1 1
             = Some ["Commit failed. Rolling back."]).
Proof.
  intros Hnone. simpl. unfold TTDB.get, TTDB.numequalto. rewrite Hnone.
  rewrite read_value_root, read_index_root. simpl.
  split; [|split; [|split; [|split; [|split; [|split; [|split]]]]]].
  - intros V d k t b Hb. by rewrite read_item_state, Hb.
  - intros b Hb. by rewrite read_item_lookup, decide_True, Hb.
  - intros k. apply read_item_items.
  - done.
  - intros b Hb. by rewrite read_item_lookup, decide_True, Hb.
  - intros k. apply read_item_items.
  - done.
  - eexists. split; [vm_compute; reflexivity|].
    split; [reflexivity|]. split; vm_compute; reflexivity.
Qed.

Lemma reads_overwrite_read_stamps_witness :
  TTDB.transactions one_key !! 7%nat = None
  ∧ (∀ b, table (TTDB.ttable one_key) !! "a" = Some b →
          table (TTDB.ttable (TTDB.get one_key "a" 7 9).1) !! "a"
          = Some (Bucket (items b) 9)).
Proof.
  split; [reflexivity|].
  exact (proj1 (proj2
    (reads_overwrite_read_stamps one_key "a" 7%nat 9 eq_refl))).
Defined.

(** ** Loops *)

Lemma for_each_app {A S} (f : S → A → option S) l1 l2 s :
  for_each f (l1 ++ l2) s = s' ← for_each f l1 s; for_each f l2 s'.
Proof.
  revert s. induction l1 as [|x l1 IH]; intros s; simpl; [done|].
  destruct (f s x); simpl; [apply IH|done].
Qed.

Lemma for_each_invariant {A S} (f : S → A → option S) (P : S → Prop) l s :
  P s →
  (∀ s x, P s → x ∈ l → ∃ s', f s x = Some s' ∧ P s') →
  ∃ s', for_each f l s = Some s' ∧ P s'.
Proof.
  revert s. induction l as [|x l IH]; intros s Hs Hf; simpl; [by eexists|].
  destruct (Hf s x Hs) as (s1 & -> & Hs1); [by left|]. simpl.
  apply IH; [done|]. intros s2 y Hs2 Hy. apply Hf; [done|by right].
Qed.

Lemma for_each_preserves {A S} (f : S → A → option S) (P : S → Prop) l s s' :
  P s →
  (∀ s x s', P s → x ∈ l → f s x = Some s' → P s') →
  for_each f l s = Some s' → P s'.
Proof.
  revert s. induction l as [|x l IH]; intros s Hs Hf; simpl.
  - by intros [= <-].
  - destruct (f s x) as [s1|] eqn:E; simpl; [|done].
    apply IH; [by eapply Hf; [| left |]|].
    intros s2 y s3 Hs2 Hy. apply Hf; [done|by right].
Qed.

(** ** The merge of [__update], key by key *)

Section merge.
Context {V : Type}.
Implicit Types (d other : gmap string (bucket V)).

Lemma insert_values_lookup ap k d values d' :
  insert_values ap k d values = Some d' →
  put_values ap (d !! k) values = Some (d' !! k)
  ∧ ∀ k', k' ≠ k → d' !! k' = d !! k'.
Proof.
  unfold insert_values, put_values. revert d.
  induction values as [|v values IH]; intros d; simpl.
  - by intros [= <-].
  - rewrite insert_put. destruct (put ap (d !! k) v) as [b'|]; simpl; [|done].
    intros H. apply IH in H as [H1 H2]. rewrite lookup_insert_eq in H1.
    split; [done|]. intros k' Hk'. by rewrite H2, lookup_insert_ne.
Qed.

Lemma insert_values_is_Some ap k d values :
  is_Some (put_values ap (d !! k) values) →
  is_Some (insert_values ap k d values).
Proof.
  unfold insert_values, put_values. revert d.
  induction values as [|v values IH]; intros d; simpl; [by eexists|].
  rewrite insert_put. destruct (put ap (d !! k) v) as [b'|]; simpl.
  - intros H. apply IH. by rewrite lookup_insert_eq.
  - by intros [? ?].
Qed.

Lemma insert_list_lookup ap (l : list (string * bucket V)) d d' :
  NoDup l.*1 →
  for_each (λ d kv, insert_values ap kv.1 d (items kv.2)) l d = Some d' →
  ∀ k, (k ∉ l.*1 → d' !! k = d !! k)
       ∧ (∀ b, (k, b) ∈ l → put_values ap (d !! k) (items b) = Some (d' !! k)).
Proof.
  revert d. induction l as [|[k0 b0] l IH]; intros d Hnd; simpl.
  - intros [= <-] k. split; [done|]. by intros b ?%elem_of_nil.
  - apply NoDup_cons in Hnd as [Hk0 Hnd].
    destruct (insert_values ap k0 d (items b0)) as [d1|] eqn:E1; simpl; [|done].
    intros H k. apply insert_values_lookup in E1 as [E1 E1'].
    destruct (IH _ Hnd H k) as [IH1 IH2]. split.
    + intros Hk. rewrite not_elem_of_cons in Hk. destruct Hk as [Hne Hk].
      rewrite IH1 by done. by apply E1'.
    + intros b [[= -> ->]|Hin]%elem_of_cons.
      * rewrite E1. f_equal. symmetry. by apply (proj1 (IH _ Hnd H k0)).
      * rewrite <-E1' by (intros ->; apply Hk0, list_elem_of_fmap; by exists (k0, b)).
        by apply IH2.
Qed.

Lemma insert_buckets_lookup ap d other d' k :
  insert_buckets ap d other = Some d' →
  match other !! k with
  | Some b => put_values ap (d !! k) (items b) = Some (d' !! k)
  | None => d' !! k = d !! k
  end.
Proof.
  intros H. unfold insert_buckets in H.
  apply insert_list_lookup with (k := k) in H as [H1 H2];
    [|apply NoDup_fst_map_to_list].
  destruct (other !! k) as [b|] eqn:E.
  - by apply H2, elem_of_map_to_list.
  - apply H1. intros ([k' b] & -> & Hin%elem_of_map_to_list)%list_elem_of_fmap.
    simpl in E. congruence.
Qed.

Lemma insert_buckets_is_Some ap d other :
  (∀ k b, other !! k = Some b → is_Some (put_values ap (d !! k) (items b))) →
  is_Some (insert_buckets ap d other).
Proof.
  intros Hall. unfold insert_buckets.
  assert (Hl : ∀ kv, kv ∈ map_to_list other →
             is_Some (put_values ap (d !! kv.1) (items kv.2))).
  { intros [k b] Hin%elem_of_map_to_list. by eapply Hall. }
  assert (Hnd := NoDup_fst_map_to_list other). clear Hall.
  revert d Hl Hnd. induction (map_to_list other) as [|[k0 b0] l IH];
    intros d Hl Hnd; simpl; [by eexists|].
  apply NoDup_cons in Hnd as [Hk0 Hnd].
  destruct (insert_values_is_Some ap k0 d (items b0)) as [d1 E1].
  { apply (Hl (k0, b0)). by left. }
  rewrite E1. simpl. apply IH; [|done].
  intros [k b] Hin. simpl. apply insert_values_lookup in E1 as [_ E1'].
  rewrite E1'; [apply (Hl (k, b)); by right|].
  intros ->. apply Hk0, list_elem_of_fmap. by exists (k0, b).
Qed.

Lemma conflict_true (mine theirs : gmap string (bucket V)) :
  conflict mine theirs = true ↔
  ∃ k bm bt, theirs !! k = Some bt ∧ mine !! k = Some bm
             ∧ read_stamp bt < read_stamp bm.
Proof.
  unfold conflict. rewrite existsb_exists. split.
  - intros ([k bt] & Hin & H). simpl in H.
    apply list_elem_of_In, elem_of_map_to_list in Hin.
    destruct (mine !! k) as [bm|] eqn:E; [|done].
    exists k, bm, bt. repeat split; [done..|]. by apply Z.gtb_lt.
  - intros (k & bm & bt & Ht & Hm & Hlt). exists (k, bt). split.
    + by apply list_elem_of_In, elem_of_map_to_list.
    + simpl. rewrite Hm. by apply Z.gtb_lt.
Qed.

End merge.

(** ** The dispatcher: replies and verbs *)

(** A session without a transaction that writes while another session
    holds one is always sent the refusal and then ['success']. *)
Lemma refused_write_replies st k v abort s now :
  TTDB.transactions st !! s = None → TTDB.transactions st ≠ ∅ →
  TTDB.write st k v abort s now = Some (st, [abort; "success"]).
Proof.
  intros Hs Hne. unfold TTDB.write. rewrite Hs.
  destruct (0 <? size (TTDB.transactions st))%nat eqn:E; [done|].
  apply Nat.ltb_ge in E. destruct Hne. apply map_size_empty_inv. lia.
Qed.

(** A BEGIN followed by any second token changes nothing and is not
    answered. *)
Lemma begin_with_argument st mode s now :
  TTDB.dispatch st ["BEGIN"; mode] s now = Some (st, []).
Proof. done. Qed.

(** C8, at the failing input: session 1 holds a transaction and session 2,
    which holds none, sends [SET a 9] and then [UNSET a].  The root and
    the sessions are left as they were, but each refusal is followed by a
    second message, ['success']. *)
Theorem refused_write_is_followed_by_success :
  run [(Datum 1 "BEGIN", 1)] (TTDB.init 20 0) = Some one_open
  ∧ TTDB.handle one_open "SET a 9" 2 2
    = Some (one_open, ["Conflicting lock. Aborting write."; "success"])
  ∧ TTDB.handle one_open "UNSET a" 2 3
    = Some (one_open, ["Aborting write."; "success"]).
Proof. repeat split; vm_compute; reflexivity. Qed.

(** C9, at the failing input: the client sends ['BEGIN RW |'] (also for a
    bare BEGIN) or ['BEGIN RO |']; the server finds two tokens, matches no
    branch, opens nothing and sends nothing, whereas a bare ['BEGIN']
    opens a transaction and is answered ['success']. *)
Theorem begin_with_mode_is_ignored :
  TTDBClient.do_begin "RW" = Some "BEGIN RW |"
  ∧ TTDBClient.do_begin "ro" = Some "BEGIN RO |"
  ∧ split "|"%char "BEGIN RW |" = ["BEGIN RW "; ""]
  ∧ TTDB.handle (TTDB.init 20 0) "BEGIN RW " 1 1 = Some (TTDB.init 20 0, [])
  ∧ TTDB.handle (TTDB.init 20 0) "BEGIN RO " 1 1 = Some (TTDB.init 20 0, [])
  ∧ TTDB.handle (TTDB.init 20 0) "BEGIN" 1 1 = Some (one_open, ["success"]).
Proof. repeat split; vm_compute; reflexivity. Qed.

(** ** Validation *)

(** What the validation of [__update] decides, for any parent and any
    incoming table and index: the merge is refused exactly when the parent
    holds a key of the incoming table, or a value of the incoming index,
    with a read stamp later than the read stamp of the incoming bucket. *)
Lemma update_refused_iff self tb ix :
  __update self tb ix = Some (false, self) ↔
  (∃ k bm bt, tb !! k = Some bt ∧ table self !! k = Some bm
              ∧ read_stamp bt < read_stamp bm)
  ∨ (∃ v bm bt, ix !! v = Some bt ∧ index self !! v = Some bm
                ∧ read_stamp bt < read_stamp bm).
Proof.
  rewrite <-!conflict_true. unfold __update.
  destruct (conflict (table self) tb); [by split; [left|]|].
  destruct (conflict (index self) ix); [by split; [right|]|].
  split; [|by intros [?|?]].
  destruct (insert_buckets _ _ tb); simpl; [|done].
  destruct (insert_buckets _ _ ix); simpl; done.
Qed.

(** C4, at the failing input: the parent's bucket for ["k"] has read
    stamp 3, the latest (and only) write stamp of the incoming bucket is
    1, and the merge succeeds, because the comparison is made with the
    incoming bucket's read stamp, 5. *)
Theorem merge_compares_read_stamps :
  stale_history = Some (stale_child, stale_parent)
  ∧ table stale_parent !! "k" = Some (Bucket [(Some "u", 0)] 3)
  ∧ table stale_child !! "k" = Some (Bucket [(Some "v", 1)] 5)
  ∧ snd <$> last [(Some "v", 1)] = Some 1
  ∧ 1 < 3
  ∧ fst <$> commit stale_child (Some stale_parent) = Some true.
Proof. repeat split; vm_compute; reflexivity. Qed.

(** ** No exception on filled tables *)

Section filled.
Context {V : Type}.
Implicit Types (d other : gmap string (bucket V)).

Lemma put_filled ap (ob : option (bucket V)) item :
  (∀ b, ob = Some b → (0 < length (items b))%nat) →
  ∃ b', put ap ob item = Some b' ∧ (0 < length (items b'))%nat.
Proof.
  intros H. destruct (put_is_Some ap ob item) as [b' Hb'].
  - intros b Hb E. specialize (H b Hb). rewrite E in H. simpl in H. lia.
  - exists b'. split; [done|]. apply put_nonempty in Hb'.
    destruct (items b'); [done|simpl; lia].
Qed.

Lemma put_values_filled ap (ob : option (bucket V)) values :
  (∀ b, ob = Some b → (0 < length (items b))%nat) →
  ∃ ob', put_values ap ob values = Some ob'
         ∧ ∀ b, ob' = Some b → (0 < length (items b))%nat.
Proof.
  intros H. unfold put_values.
  apply (for_each_invariant _
           (λ ob, ∀ b, ob = Some b → (0 < length (items b))%nat)); [done|].
  intros ob1 v H1 _. destruct (put_filled ap ob1 v H1) as (b' & -> & Hb').
  eexists; split; [done|]. by intros b [= <-].
Qed.

Lemma insert_buckets_filled ap d other :
  filled d →
  ∃ d', insert_buckets ap d other = Some d' ∧ filled d'.
Proof.
  intros Hd. destruct (insert_buckets_is_Some ap d other) as [d' Hd'].
  { intros k b _. destruct (put_values_filled ap (d !! k) (items b)) as (? & -> & _);
      [|done]. intros b0 Hb0. by apply (Hd k). }
  exists d'. split; [done|]. intros k b' Hb'.
  assert (Hk := insert_buckets_lookup ap d other d' k Hd').
  destruct (other !! k) as [b|].
  - destruct (put_values_filled ap (d !! k) (items b)) as (ob & Hob & Hfill).
    { intros b0 Hb0. by apply (Hd k). }
    rewrite Hob in Hk. injection Hk as ->. by apply Hfill.
  - rewrite Hk in Hb'. by apply (Hd k).
Qed.

End filled.

(** ** A failed merge leaves the parent alone *)

Lemma update_false self tb ix self' :
  __update self tb ix = Some (false, self') → self' = self.
Proof.
  unfold __update. destruct (conflict (table self) tb); [by intros [= <-]|].
  destruct (conflict (index self) ix); [by intros [= <-]|].
  destruct (insert_buckets _ _ tb); simpl; [|done].
  destruct (insert_buckets _ _ ix); simpl; done.
Qed.

Lemma update_filled self tb ix :
  Filled self →
  ∃ ok self', __update self tb ix = Some (ok, self') ∧ Filled self'.
Proof.
  intros [Ht Hi]. unfold __update.
  destruct (conflict (table self) tb); [by exists false, self|].
  destruct (conflict (index self) ix); [by exists false, self|].
  destruct (insert_buckets_filled (autopurge self) (table self) tb Ht)
    as (tb' & -> & Ht').
  destruct (insert_buckets_filled (autopurge self) (index self) ix Hi)
    as (ix' & -> & Hi').
  simpl. by eexists true, _.
Qed.

Lemma commit_table_false tab parent parent' :
  TTDBTransaction.commit_table tab parent = Some (false, parent') →
  parent' = parent.
Proof.
  unfold TTDBTransaction.commit_table, commit.
  destruct (__update parent (table tab) (index tab)) as [[[] p]|] eqn:E;
    simpl; [done| |done].
  intros [= <-]. by apply update_false in E.
Qed.

Lemma commit_table_filled tab parent :
  Filled parent →
  ∃ ok parent', TTDBTransaction.commit_table tab parent = Some (ok, parent')
                ∧ Filled parent'.
Proof.
  intros H. unfold TTDBTransaction.commit_table, commit.
  destruct (update_filled parent (table tab) (index tab) H) as (ok & p & -> & Hp).
  simpl. by exists ok, p.
Qed.

(** Induction on the nesting of a transaction. *)
Lemma transaction_ind (P : TTDBTransaction.t → Prop) :
  (∀ T tab, P (TTDBTransaction.Build T tab None)) →
  (∀ T tab sub, P sub → P (TTDBTransaction.Build T tab (Some sub))) →
  ∀ x, P x.
Proof.
  intros Hnone Hsome. fix IH 1. intros [T tab [sub|]].
  - apply Hsome, IH.
  - apply Hnone.
Qed.

Lemma transaction_commit_false x parent parent' :
  TTDBTransaction.commit x parent = Some (false, parent') → parent' = parent.
Proof.
  revert parent parent'. induction x as [T tab|T tab sub IH] using transaction_ind;
    intros parent parent'; simpl.
  - apply commit_table_false.
  - destruct (TTDBTransaction.commit sub tab) as [[[] tab']|]; simpl; [| |done].
    + apply commit_table_false.
    + by intros [= <-].
Qed.

Lemma transaction_commit_filled x parent :
  Filled parent → Forall Filled (scopes x) →
  ∃ ok parent', TTDBTransaction.commit x parent = Some (ok, parent')
                ∧ Filled parent'.
Proof.
  revert parent. induction x as [T tab|T tab sub IH] using transaction_ind;
    intros parent Hp Hx; simpl in *.
  - by apply commit_table_filled.
  - apply Forall_cons in Hx as [Htab Hsub].
    destruct (IH tab Htab Hsub) as (ok & tab' & -> & Htab'). simpl.
    destruct ok; [by apply commit_table_filled|]. by exists false, parent.
Qed.

(** ** COMMIT at the session manager *)

Lemma foldl_min_spec l x :
  (foldl Z.min x l = x ∨ foldl Z.min x l ∈ l)
  ∧ foldl Z.min x l ≤ x ∧ ∀ y, y ∈ l → foldl Z.min x l ≤ y.
Proof.
  revert x. induction l as [|z l IH]; intros x; simpl.
  - split; [by left|]. split; [lia|]. by intros y ?%elem_of_nil.
  - destruct (IH (Z.min x z)) as (Hin & Hle & Hall). split; [|split].
    + destruct Hin as [->|Hin]; [|right; by right].
      destruct (Z.min_spec x z) as [[_ ->]|[_ ->]]; [by left|right; by left].
    + lia.
    + intros y [->|Hy]%elem_of_cons; [lia|by apply Hall].
Qed.

Lemma min_list_spec l m :
  min_list l = Some m → m ∈ l ∧ ∀ y, y ∈ l → m ≤ y.
Proof.
  destruct l as [|x l]; simpl; [done|]. intros [= <-].
  destruct (foldl_min_spec l x) as (Hin & Hle & Hall). split.
  - destruct Hin as [->|Hin]; [by left|by right].
  - intros y [->|Hy]%elem_of_cons; [done|by apply Hall].
Qed.

Lemma timestamps_elem self y :
  y ∈ TTDB.timestamps self ↔
  ∃ c x, TTDB.transactions self !! c = Some x ∧ y = TTDBTransaction.timestamp x.
Proof.
  unfold TTDB.timestamps. rewrite list_elem_of_fmap. split.
  - intros ([c x] & -> & Hin%elem_of_map_to_list). by exists c, x.
  - intros (c & x & Hx & ->). exists (c, x). split; [done|].
    by apply elem_of_map_to_list.
Qed.

(** C5: a COMMIT from a session whose outer scope is not the earliest of
    the live ones is answered ['Conflicting lock. Aborting transaction.'],
    the scope is dropped and the root is left as it was; and whatever the
    outcome of a COMMIT, the session has no scope afterwards (and unless
    the answer is ['success'] the root is as it was). *)
Theorem commit_drops_outer_scope (self : TTDB.t) (connection : nat)
    (x : TTDBTransaction.t) :
  TTDB.transactions self !! connection = Some x →
  Filled (TTDB.ttable self) →
  Forall Filled (scopes x) →
  let dropped := delete connection (TTDB.transactions self) in
  ((∃ c y, TTDB.transactions self !! c = Some y
           ∧ TTDBTransaction.timestamp y < TTDBTransaction.timestamp x) →
   TTDB.commit self connection
   = Some (TTDB.Build (TTDB.ttable self) dropped (TTDB.purge_period self),
           ["Conflicting lock. Aborting transaction."]))
  ∧ ∃ self' reply,
      TTDB.commit self connection = Some (self', [reply])
      ∧ reply ∈ ["success"; "Conflicting lock. Aborting transaction.";
                 "Commit failed. Rolling back."]
      ∧ TTDB.transactions self' = dropped
      ∧ TTDB.transactions self' !! connection = None
      ∧ (reply ≠ "success" → TTDB.ttable self' = TTDB.ttable self).
Proof.
  intros Hx Hroot Hscopes dropped. unfold TTDB.commit. rewrite Hx.
  destruct (min_list (TTDB.timestamps self)) as [m|] eqn:Hm.
  2:{ assert (Hin : TTDBTransaction.timestamp x ∈ TTDB.timestamps self).
      { apply timestamps_elem. by exists connection, x. }
      destruct (TTDB.timestamps self); [by apply elem_of_nil in Hin|done]. }
  apply min_list_spec in Hm as [Hmin Hle]. simpl. split.
  - intros (c & y & Hy & Hlt).
    assert (m ≤ TTDBTransaction.timestamp y).
    { apply Hle, timestamps_elem. by exists c, y. }
    destruct (Z.gtb_spec (TTDBTransaction.timestamp x) m); [done|lia].
  - destruct (TTDBTransaction.timestamp x >? m).
    + eexists _, _. split; [done|]. simpl.
      split; [repeat constructor|]. split; [done|].
      split; [apply lookup_delete_eq|done].
    + destruct (transaction_commit_filled x (TTDB.ttable self) Hroot Hscopes)
        as (ok & root' & E & _). rewrite E. simpl.
      eexists _, _. split; [done|]. simpl.
      split; [destruct ok; repeat constructor|]. split; [done|].
      split; [apply lookup_delete_eq|].
      destruct ok; [done|]. intros _. by apply transaction_commit_false in E.
Qed.

Lemma commit_drops_outer_scope_witness :
  TTDB.transactions two_open !! 2%nat = Some later_scope
  ∧ Filled (TTDB.ttable two_open)
  ∧ Forall Filled (scopes later_scope)
  ∧ TTDB.commit two_open 2
    = Some (TTDB.Build (TTDB.ttable two_open)
                       (delete 2%nat (TTDB.transactions two_open)) 20,
            ["Conflicting lock. Aborting transaction."]).
Proof.
  assert (H1 : TTDB.transactions two_open !! 2%nat = Some later_scope)
    by reflexivity.
  assert (H2 : Filled (TTDB.ttable two_open))
    by (unfold Filled, filled; compute_done).
  assert (H3 : Forall Filled (scopes later_scope))
    by (unfold Filled, filled; compute_done).
  split; [exact H1|split; [exact H2|split; [exact H3|]]].
  apply (proj1 (commit_drops_outer_scope two_open 2 later_scope H1 H2 H3)).
  exists 1%nat, (TTDBTransaction.Build 2 (TTDBTable.init true None 20 2) None).
  split; [reflexivity|simpl; lia].
Defined.

(** ** Purge *)

Section scans.
Context {V : Type}.
Implicit Types (its : list (V * Z)) (b : bucket V).

Lemma scan_items_all its t acc :
  Forall (λ it, it.2 ≤ t) its →
  scan_items its t acc = match last its with Some e => Some e | None => acc end.
Proof.
  intros H. revert acc. induction H as [|x r Hx _ IH]; intros acc; simpl; [done|].
  destruct (Z.gtb_spec x.2 t); [lia|]. rewrite IH, last_cons.
  by destruct (last r).
Qed.

Lemma scan_items_app_later its x t acc :
  t < x.2 → scan_items (its ++ [x]) t acc = scan_items its t acc.
Proof.
  intros Hx. revert acc. induction its as [|y r IH]; intros acc; simpl.
  - destruct (Z.gtb_spec x.2 t); [done|lia].
  - destruct (y.2 >? t); [done|apply IH].
Qed.

Lemma drop_last its :
  drop (length its - 1) its = option_list (last its).
Proof.
  induction its as [|x r IH]; [done|]. destruct r as [|y r]; [done|].
  rewrite last_cons. simpl in IH. rewrite Nat.sub_0_r in IH.
  simpl. rewrite IH, last_cons. by destruct (last r).
Qed.

Lemma filter_later_all its horizon :
  Forall (λ it : V * Z, horizon < it.2) its →
  filter (λ it : V * Z, horizon < it.2) its = its.
Proof.
  induction 1 as [|x r Hx _ IH]; [done|].
  rewrite filter_cons_True by done. by rewrite IH.
Qed.

Lemma scan_items_filter its horizon t acc acc' :
  StronglySorted (λ x y : V * Z, x.2 ≤ y.2) its →
  Exists (λ it : V * Z, horizon < it.2 ≤ t) its →
  scan_items (filter (λ it : V * Z, horizon < it.2) its) t acc'
  = scan_items its t acc.
Proof.
  intros Hs. revert acc acc'.
  induction Hs as [|x r Hs IH Hx]; intros acc acc' H; simpl.
  - by apply Exists_nil in H.
  - destruct (Z.gtb_spec x.2 t) as [Hgt|Hle].
    + exfalso. apply Exists_cons in H as [H|H]; [lia|].
      apply Exists_exists in H as (y & Hy & Hy').
      rewrite Forall_forall in Hx. specialize (Hx y Hy). lia.
    + destruct (decide (horizon < x.2)) as [Hin|Hout].
      * rewrite filter_cons_True by done. simpl.
        destruct (Z.gtb_spec x.2 t); [lia|].
        rewrite filter_later_all; [done|].
        eapply Forall_impl; [exact Hx|]. simpl. intros y Hy. lia.
      * rewrite filter_cons_False by done. apply IH.
        apply Exists_cons in H as [H|H]; [lia|done].
Qed.

(** The retention rule does not change what a settled read sees. *)
Lemma scan_items_retain b horizon t :
  ascending b → horizon ≤ t → settled horizon t b →
  scan_items (items (retain horizon b)) t None = scan_items (items b) t None.
Proof.
  intros Hs Hh Hset. unfold retain.
  destruct (filter (λ value : V * Z, horizon < value.2) (items b))
    as [|y out] eqn:E.
  - simpl.
    assert (Hall : Forall (λ it : V * Z, it.2 ≤ horizon) (items b)).
    { apply Forall_forall. intros x Hx.
      destruct (decide (horizon < x.2)) as [Hlt|]; [|lia].
      assert (x ∈ filter (λ value : V * Z, horizon < value.2) (items b))
        by (by apply list_elem_of_filter).
      rewrite E in H. by apply elem_of_nil in H. }
    rewrite drop_last.
    rewrite (scan_items_all (items b)) by
      (eapply Forall_impl; [exact Hall|]; simpl; intros; lia).
    destruct (last (items b)) as [e|] eqn:El; simpl; [|done].
    apply last_Some_elem_of in El. rewrite Forall_forall in Hall.
    specialize (Hall e El). destruct (Z.gtb_spec e.2 t); [lia|done].
  - change (scan_items (y :: out) t None = scan_items (items b) t None).
    rewrite <-E. apply scan_items_filter; [done|].
    destruct Hset as [Hall|Hex]; [|done]. exfalso.
    assert (Hy : y ∈ filter (λ value : V * Z, horizon < value.2) (items b))
      by (rewrite E; by left).
    apply list_elem_of_filter in Hy as [Hy Hy'].
    rewrite Forall_forall in Hall. specialize (Hall y Hy'). lia.
Qed.

End scans.

Lemma value_at_lookup self k t :
  value_at self k t = (b ← table self !! k; scan_items (items b) t None) ≫= fst.
Proof. unfold value_at. by rewrite read_value_root, read_item_result. Qed.

Lemma count_at_lookup self v t :
  count_at self v t
  = from_option fst 0 (b ← index self !! v; scan_items (items b) t None).
Proof. unfold count_at. by rewrite read_index_root, read_item_result. Qed.

Lemma retain_items {V} (b : bucket V) horizon :
  items (retain horizon b)
  = match filter (λ it : V * Z, horizon < it.2) (items b) with
    | [] => option_list (last (items b))
    | out => out
    end.
Proof.
  unfold retain.
  destruct (filter (λ it : V * Z, horizon < it.2) (items b)); simpl; [|done].
  apply drop_last.
Qed.

(** C3, the claim as stated fails: with ["a"] written at stamps 1 and 10,
    a purge at horizon 5 keeps only the entry of stamp 10, and the reads
    at stamp 7 (not before the horizon) that returned ["x"] and the count
    1 return nothing and 0. *)
Lemma purge_loses_visible_entry :
  5 ≤ 7
  ∧ value_at two_versions "a" 7 = Some "x"
  ∧ value_at (purge_entries two_versions 5 1000000000) "a" 7 = None
  ∧ count_at two_versions "x" 7 = 1
  ∧ count_at (purge_entries two_versions 5 1000000000) "x" 7 = 0.
Proof. split; [lia|]. repeat split; vm_compute; reflexivity. Qed.

(** C3, as amended: on a table without a parent whose buckets are in
    ascending order and whose counts are not negative, [read_value(k, t)]
    and [read_index(v, t)] at [t ≥ horizon] return the same before and
    after [purge(horizon)] whenever the bucket read has no entry written
    after the horizon, or has one written after it and not after [t];
    and a purge that is not rate-limited leaves, in a bucket of several
    entries, the entries written after the horizon, or the most recent
    entry alone when there are none. *)
Theorem purge_preserves_settled_reads (self : TTDBTable.t) (horizon now t : Z) :
  horizon ≤ t →
  map_Forall (λ _ b, ascending b) (table self) →
  map_Forall (λ _ b, ascending b) (index self) →
  counts_nonnegative (index self) →
  let purged := purge_entries self horizon now in
  (∀ k, (∀ b, table self !! k = Some b → settled horizon t b) →
        value_at purged k t = value_at self k t)
  ∧ (∀ v, (∀ b, index self !! v = Some b → settled horizon t b) →
          count_at purged v t = count_at self v t)
  ∧ (purge_period self * 1000000 ≤ now - purge_stamp self →
     (∀ k b, table self !! k = Some b → (1 < length (items b))%nat →
             items <$> table purged !! k
             = Some match filter (λ it : option string * Z, horizon < it.2)
                                 (items b) with
                    | [] => option_list (last (items b))
                    | out => out
                    end)
     ∧ (∀ v b, index self !! v = Some b → (1 < length (items b))%nat →
               items <$> index purged !! v
               = Some match filter (λ it : Z * Z, horizon < it.2) (items b) with
                      | [] => option_list (last (items b))
                      | out => out
                      end)).
Proof.
  intros Hh Hst Hsi Hc. simpl. unfold purge_entries.
  destruct (Z.ltb_spec (now - purge_stamp self) (purge_period self * 1000000))
    as [Hrate|Hrate].
  { split; [done|]. split; [done|]. lia. }
  split; [|split].
  - intros k Hset. rewrite !value_at_lookup. simpl. rewrite lookup_omap.
    destruct (table self !! k) as [b|] eqn:Hb; simpl; [|done].
    specialize (Hset b eq_refl). specialize (Hst k b Hb).
    unfold purge_table_bucket.
    destruct (items b) as [|[[v|] s] [|y r]] eqn:E; simpl;
      try (rewrite scan_items_retain, E by done; done).
    + by rewrite E.
    + by destruct (s >? t).
  - intros v Hset. rewrite !count_at_lookup. simpl. rewrite lookup_omap.
    destruct (index self !! v) as [b|] eqn:Hb; simpl; [|done].
    specialize (Hset b eq_refl). specialize (Hsi v b Hb). specialize (Hc v b Hb).
    unfold purge_index_bucket. simpl in Hc.
    destruct (items b) as [|[n s] [|y r]] eqn:E; simpl;
      try (rewrite scan_items_retain, E by done; done).
    + by rewrite E.
    + destruct (Z.gtb_spec n 0); simpl; [by rewrite E|].
      apply Forall_cons in Hc as [Hn _]. simpl in Hn.
      destruct (s >? t); simpl; [done|lia].
  - intros _. split.
    + intros k b Hb Hlen. simpl. rewrite lookup_omap, Hb. simpl.
      unfold purge_table_bucket. rewrite <-retain_items.
      destruct (items b) as [|[[v|] s] [|y r]]; simpl in *; try lia; done.
    + intros v b Hb Hlen. simpl. rewrite lookup_omap, Hb. simpl.
      unfold purge_index_bucket. rewrite <-retain_items.
      destruct (items b) as [|[n s] [|y r]]; simpl in *; try lia; done.
Qed.

Lemma purge_preserves_settled_reads_witness :
  5 ≤ 12
  ∧ map_Forall (λ _ b, ascending b) (table two_versions)
  ∧ map_Forall (λ _ b, ascending b) (index two_versions)
  ∧ counts_nonnegative (index two_versions)
  ∧ value_at (purge_entries two_versions 5 1000000000) "a" 12
    = value_at two_versions "a" 12.
Proof.
  assert (H1 : 5 ≤ 12) by lia.
  assert (H2 : map_Forall (λ _ b, ascending b) (table two_versions))
    by (unfold ascending; compute_done).
  assert (H3 : map_Forall (λ _ b, ascending b) (index two_versions))
    by (unfold ascending; compute_done).
  assert (H4 : counts_nonnegative (index two_versions))
    by (unfold counts_nonnegative; compute_done).
  split; [exact H1|split; [exact H2|split; [exact H3|split; [exact H4|]]]].
  apply (proj1 (purge_preserves_settled_reads two_versions 5 1000000000 12
                  H1 H2 H3 H4)).
  intros b [= <-]. right. apply Exists_cons_tl, Exists_cons_hd. simpl. lia.
Defined.

(** ** The index counts the holders of a value *)

Section entries.
Context {V : Type}.
Implicit Types (d : gmap string (bucket V)) (its : list (V * Z)).

Lemma entries_lookup d k : entries d !! k = items <$> d !! k.
Proof. apply lookup_fmap. Qed.

Lemma entries_read_item d k t : entries (__read_item d k t).2 = entries d.
Proof.
  apply map_eq. intros k'. rewrite !entries_lookup. apply read_item_items.
Qed.

Lemma filled_read_item d k t : filled d → filled (__read_item d k t).2.
Proof.
  intros H k' b' Hb'. rewrite read_item_lookup in Hb'.
  destruct (decide (k = k')) as [<-|]; [|by apply (H k')].
  destruct (d !! k) as [b|] eqn:E; [|done]. injection Hb' as <-. by apply (H k b).
Qed.

Lemma written_by_read_item now d k t :
  written_by now d → written_by now (__read_item d k t).2.
Proof.
  intros H k' b' Hb'. rewrite read_item_lookup in Hb'.
  destruct (decide (k = k')) as [<-|]; [|by apply (H k')].
  destruct (d !! k) as [b|] eqn:E; [|done]. injection Hb' as <-. by apply (H k b).
Qed.

Lemma scan_items_snoc its x now t :
  Forall (λ it : V * Z, it.2 ≤ now) its →
  scan_items (its ++ [(x, now)]) t None
  = if decide (now ≤ t) then Some (x, now) else scan_items its t None.
Proof.
  intros H. destruct (decide (now ≤ t)) as [Hle|Hlt].
  - rewrite scan_items_all.
    + by rewrite last_snoc.
    + apply Forall_app. split; [|by apply Forall_singleton].
      eapply Forall_impl; [exact H|]. simpl. intros. lia.
  - apply scan_items_app_later. simpl. lia.
Qed.

Lemma scan_items_latest its now t :
  Forall (λ it : V * Z, it.2 ≤ now) its → now ≤ t →
  scan_items its t None = scan_items its now None.
Proof.
  intros H Hle. rewrite !scan_items_all; [done|done|].
  eapply Forall_impl; [exact H|]. simpl. intros. lia.
Qed.

(** On a root whose entries are not later than [now], an insert at [now]
    appends. *)
Lemma insert_appends d k x now :
  filled d → written_by now d →
  ∃ d', __insert false d k (x, now) = Some d'
        ∧ filled d' ∧ written_by now d'
        ∧ entries d' = <[k := default [] (entries d !! k) ++ [(x, now)]]> (entries d).
Proof.
  intros Hf Hw. rewrite insert_put.
  assert (Hput : ∃ b', put false (d !! k) (x, now) = Some b'
            ∧ items b' = default [] (entries d !! k) ++ [(x, now)]).
  { rewrite entries_lookup. destruct (d !! k) as [b|] eqn:E.
    - rewrite put_append.
      + by eexists.
      + specialize (Hf k b E). simpl in Hf. intros E'. rewrite E' in Hf.
        simpl in Hf. lia.
      + apply (Hw k b E).
    - by eexists. }
  destruct Hput as (b' & -> & Hb'). simpl. eexists. split; [done|].
  split; [|split].
  - apply map_Forall_insert_2; [|done]. rewrite Hb', length_app. simpl. lia.
  - apply map_Forall_insert_2; [|done]. rewrite Hb'. apply Forall_app. split.
    + rewrite entries_lookup. destruct (d !! k) as [b|] eqn:E; simpl; [|done].
      apply (Hw k b E).
    + apply Forall_singleton. simpl. lia.
  - unfold entries. by rewrite fmap_insert, Hb'.
Qed.

End entries.



Lemma count_at_entries self v t :
  count_at self v t
  = from_option fst 0 (its ← entries (index self) !! v; scan_items its t None).
Proof. rewrite count_at_lookup, entries_lookup. by destruct (index self !! v). Qed.


Lemma written_by_entries {V} now (d : gmap string (bucket V)) k :
  written_by now d →
  Forall (λ it : V * Z, it.2 ≤ now) (default [] (entries d !! k)).
Proof.
  intros H. rewrite entries_lookup. destruct (d !! k) as [b|] eqn:E; simpl; [|done].
  apply (H k b E).
Qed.

Lemma count_at_latest self w now t :
  written_by now (index self) → now ≤ t → count_at self w t = count_at self w now.
Proof.
  intros H Hle. rewrite !count_at_entries.
  assert (Hk := written_by_entries now (index self) w H).
  destruct (entries (index self) !! w) as [its|]; simpl in *; [|done].
  by rewrite (scan_items_latest its now t).
Qed.


Lemma adjust_index_root self w δ now :
  autopurge self = false → filled (index self) → written_by now (index self) →
  ∃ ix', adjust_index self [] w δ now = Some (set_index self ix', [])
    ∧ filled ix' ∧ written_by now ix'
    ∧ entries ix'
      = <[w := default [] (entries (index self) !! w)
                 ++ [(count_at self w now + δ, now)]]> (entries (index self)).
Proof.
  intros Hap Hf Hw. unfold adjust_index. rewrite read_index_root. simpl.
  rewrite Hap.
  destruct (insert_appends (__read_item (index self) w now).2 w
              (from_option fst 0 (__read_item (index self) w now).1 + δ) now)
    as (ix' & -> & Hf' & Hw' & He).
  { by apply filled_read_item. }
  { by apply written_by_read_item. }
  simpl. exists ix'. split; [done|]. split; [done|]. split; [done|].
  rewrite He, entries_read_item. unfold count_at. by rewrite read_index_root.
Qed.

Lemma count_at_adjusted self ix' w c now w' t :
  written_by now (index self) →
  entries ix' = <[w := default [] (entries (index self) !! w) ++ [(c, now)]]>
                  (entries (index self)) →
  count_at (set_index self ix') w' t
  = if decide (w' = w ∧ now ≤ t) then c else count_at self w' t.
Proof.
  intros Hw He. rewrite !count_at_entries. simpl. rewrite He.
  destruct (decide (w' = w)) as [->|Hne].
  - rewrite lookup_insert_eq. simpl.
    rewrite scan_items_snoc by (by apply written_by_entries).
    destruct (decide (now ≤ t)).
    + by rewrite decide_True.
    + rewrite decide_False by tauto.
      by destruct (entries (index self) !! w).
  - rewrite lookup_insert_ne by done. rewrite decide_False by tauto. done.
Qed.

Lemma count_at_set_table self tb w t :
  count_at (set_table self tb) w t = count_at self w t.
Proof. by rewrite !count_at_entries. Qed.

Lemma extends_at_one {V} now (d d' : gmap string (bucket V)) k x :
  entries d' = <[k := default [] (entries d !! k) ++ [(x, now)]]> (entries d) →
  extends_at now d d'.
Proof.
  intros He k'. rewrite He. destruct (decide (k' = k)) as [->|].
  - right. exists x. by rewrite lookup_insert_eq.
  - left. by rewrite lookup_insert_ne.
Qed.

Lemma extends_at_two {V} now (d d1 d2 : gmap string (bucket V)) k1 k2 x1 x2 :
  entries d1 = <[k1 := default [] (entries d !! k1) ++ [(x1, now)]]> (entries d) →
  entries d2 = <[k2 := default [] (entries d1 !! k2) ++ [(x2, now)]]> (entries d1) →
  k1 ≠ k2 →
  extends_at now d d2.
Proof.
  intros He1 He2 Hne k'. rewrite He2. destruct (decide (k' = k2)) as [->|].
  - right. exists x2. by rewrite lookup_insert_eq, He1, lookup_insert_ne.
  - rewrite lookup_insert_ne by done. by apply (extends_at_one now d d1 k1 x1).
Qed.

Ltac count_cases H :=
  repeat case_decide; destruct_and?; simplify_eq;
  rewrite ?H by lia; try lia; exfalso; naive_solver lia.

Lemma write_value_root self k v now :
  autopurge self = false → Filled self →
  written_by now (table self) → written_by now (index self) →
  ∃ self', write_value self [] k v now = Some (self', [])
    ∧ autopurge self' = false ∧ Filled self'
    ∧ written_by now (table self') ∧ written_by now (index self')
    ∧ entries (table self')
      = <[k := default [] (entries (table self) !! k) ++ [(v, now)]]>
          (entries (table self))
    ∧ (∀ w t, count_at self' w t
              = if decide (now ≤ t)
                then count_at self w now + delta (value_at self k now) v w
                else count_at self w t)
    ∧ extends_at now (index self) (index self').
Proof.
  intros Hap [Hft Hfi] Hwt Hwi. unfold write_value. rewrite read_value_root.
  assert (Hold : (__read_item (table self) k now).1 ≫= fst = value_at self k now).
  { unfold value_at. by rewrite read_value_root. }
  cbv beta iota zeta. rewrite Hold. clear Hold.
  destruct (insert_appends (__read_item (table self) k now).2 k v now)
    as (tb & Etb & Hftb & Hwtb & Hetb).
  { by apply filled_read_item. }
  { by apply written_by_read_item. }
  rewrite entries_read_item in Hetb.
  change (autopurge (set_table self (__read_item (table self) k now).2))
    with (autopurge self).
  change (table (set_table self (__read_item (table self) k now).2))
    with (__read_item (table self) k now).2.
  rewrite Hap, Etb. simpl.
  set (self2 := set_table (set_table self (__read_item (table self) k now).2) tb).
  assert (Hap2 : autopurge self2 = false) by done.
  assert (H2 : ∀ w t, count_at self2 w t = count_at self w t).
  { intros. unfold self2. by rewrite !count_at_set_table. }
  assert (Hlatest : ∀ w t, now ≤ t → count_at self w t = count_at self w now).
  { intros. by apply count_at_latest. }
  destruct (value_at self k now) as [o|] eqn:Eo.
  - destruct (decide (Some o ≠ v)) as [Hne|Heq].
    + destruct (adjust_index_root self2 o (-1) now Hap2 Hfi Hwi)
        as (ix1 & -> & Hf1 & Hw1 & He1). simpl.
      assert (H3 : ∀ w t, count_at (set_index self2 ix1) w t
                = if decide (w = o ∧ now ≤ t) then count_at self o now + -1
                  else count_at self w t).
      { intros. rewrite (count_at_adjusted self2 ix1 o _ now) by done.
        by rewrite !H2. }
      destruct v as [n|].
      * destruct (adjust_index_root (set_index self2 ix1) n 1 now Hap2 Hf1 Hw1)
          as (ix2 & -> & Hf2 & Hw2 & He2).
        eexists. split; [done|]. split; [done|]. split; [by split|].
        split; [done|]. split; [done|]. split; [done|].
        assert (o ≠ n) by (by intros ->).
        split; [|by apply (extends_at_two _ _ ix1 _ o n _ _ He1 He2)].
        intros w t.
        rewrite (count_at_adjusted (set_index self2 ix1) ix2 n _ now) by done.
        rewrite !H3. unfold delta.
        count_cases Hlatest.
      * eexists. split; [done|]. split; [done|]. split; [by split|].
        split; [done|]. split; [done|]. split; [done|].
        split; [|by apply (extends_at_one _ _ _ o _ He1)].
        intros w t. rewrite H3. unfold delta.
        count_cases Hlatest.
    + apply dec_stable in Heq. subst v. simpl.
      eexists. split; [done|]. split; [done|]. split; [by split|].
      split; [done|]. split; [done|]. split; [done|].
      split; [|by intros ?; left].
      intros w t. rewrite H2. unfold delta.
      count_cases Hlatest.
  - simpl. destruct v as [n|].
    + rewrite decide_True by done.
      destruct (adjust_index_root self2 n 1 now Hap2 Hfi Hwi)
        as (ix1 & -> & Hf1 & Hw1 & He1).
      eexists. split; [done|]. split; [done|]. split; [by split|].
      split; [done|]. split; [done|]. split; [done|].
      split; [|by apply (extends_at_one _ _ _ n _ He1)].
      intros w t. rewrite (count_at_adjusted self2 ix1 n _ now) by done.
      rewrite !H2. unfold delta.
      count_cases Hlatest.
    + eexists. split; [done|]. split; [done|]. split; [by split|].
      split; [done|]. split; [done|]. split; [done|].
      split; [|by intros ?; left].
      intros w t. rewrite H2. unfold delta.
      count_cases Hlatest.
Qed.


Lemma written_by_mono {V} (d : gmap string (bucket V)) c c' :
  c ≤ c' → written_by c d → written_by c' d.
Proof.
  intros Hle H k b Hb. eapply Forall_impl; [apply (H k b Hb)|].
  simpl. intros. lia.
Qed.







(** C2: the count of NUMEQUALTO is not the number of keys that hold the
    value once two transactions have overlapped.  Sessions 1 and 2 open
    transactions at stamps 1 and 2 and set different keys to ["10"]; each
    scope derives its index entry from the count it read in the root;
    both COMMITs are answered ["success"].  No transaction is left, GET
    replies ["10"] for both keys, and NUMEQUALTO 10 replies ["1"]. *)
Theorem overlapping_commits_miscount :
  ∃ st4 st5 st,
    run (take 4 overlapping_trace) (TTDB.init 20 0) = Some st4
    ∧ TTDB.handle st4 "COMMIT" 1 5 = Some (st5, ["success"])
    ∧ TTDB.handle st5 "COMMIT" 2 6 = Some (st, ["success"])
    ∧ run overlapping_trace (TTDB.init 20 0) = Some st
    ∧ TTDB.transactions st = ∅
    ∧ (TTDB.get st "a" 3 7).2 = ["10"]
    ∧ (TTDB.get st "b" 3 7).2 = ["10"]
    ∧ (TTDB.numequalto st "10" 3 7).2 = ["1"]
    ∧ (read_value (TTDB.ttable st) [] "a" 7).1.1 = Some "10"
    ∧ (read_value (TTDB.ttable st) [] "b" 7).1.1 = Some "10"
    ∧ (read_index (TTDB.ttable st) [] "10" 7).1.1 = 1.
Proof. do 3 eexists. repeat split; vm_compute; reflexivity. Qed.

(** ** Commit of a stack of scopes *)

Section placed.
Context {V : Type}.
Implicit Types (its : list (V * Z)).

Lemma scan_position_shift its T j :
  scan_position its T j = (j + scan_position its T 0)%nat.
Proof.
  revert j. induction its as [|x r IH]; intros j; simpl; [lia|].
  destruct (x.2 >? T); [lia|]. rewrite (IH (S j)), (IH 1%nat). lia.
Qed.

Lemma scan_items_drop its T acc :
  scan_items (drop (scan_position its T 0) its) T acc = acc.
Proof.
  induction its as [|x r IH]; simpl; [done|].
  destruct (x.2 >? T) eqn:E; simpl; [by rewrite E|].
  rewrite scan_position_shift. simpl. apply IH.
Qed.

Lemma scan_items_placed its v T acc :
  scan_items (take (scan_position its T 0) its
              ++ (v, T) :: drop (scan_position its T 0) its) T acc
  = Some (v, T).
Proof.
  revert acc. induction its as [|x r IH]; intros acc; simpl.
  - destruct (Z.gtb_spec T T); [lia|done].
  - destruct (x.2 >? T) eqn:E; simpl.
    + destruct (Z.gtb_spec T T); [lia|]. by rewrite E.
    + rewrite scan_position_shift. simpl. rewrite E. apply IH.
Qed.

(** Whatever the bucket was, a read at [T] after an insert at [T] returns
    the inserted entry. *)
Lemma scan_items_put ap (ob : option (bucket V)) v T b' :
  put ap ob (v, T) = Some b' → scan_items (items b') T None = Some (v, T).
Proof.
  destruct ob as [b|]; cbn [put mbind option_bind snd].
  - destruct (insert_position (items b) T) as [i|] eqn:Ei; [|done].
    assert (i = scan_position (items b) T 0) as ->.
    { unfold insert_position in Ei. destruct (items b); [done|]. by injection Ei. }
    intros [= <-]. cbn [items]. destruct ap.
    + cbn [scan_items snd]. destruct (Z.gtb_spec T T); [lia|].
      apply scan_items_drop.
    + apply scan_items_placed.
  - intros [= <-]. simpl. destruct (Z.gtb_spec T T); [lia|done].
Qed.

End placed.
Section stack.
Context {V : Type}.
Implicit Types (d other : gmap string (bucket V)).

Lemma single_at_items T (b : bucket V) :
  single_at T b → ∃ v, items b = [(v, T)].
Proof.
  intros [Hl Hall]. destruct b as [its rs]. simpl in *.
  destruct its as [|[v s] [|? ?]]; try done.
  rewrite Forall_singleton in Hall. simpl in Hall. subst. by exists v.
Qed.

Lemma put_values_single ap (ob : option (bucket V)) e :
  put_values ap ob [e] = b' ← put ap ob e; Some (Some b').
Proof. unfold put_values. simpl. by destruct (put ap ob e). Qed.

(** Merging a scope into any dictionary puts its one entry per key. *)
Lemma merge_single_lookup T ap d other d' k :
  map_Forall (λ _ b, single_at T b) other →
  insert_buckets ap d other = Some d' →
  match latest other k with
  | Some e => e.2 = T ∧ ∃ b', put ap (d !! k) e = Some b' ∧ d' !! k = Some b'
  | None => d' !! k = d !! k
  end.
Proof.
  intros Hw H. assert (Hk := insert_buckets_lookup ap d other d' k H).
  unfold latest. destruct (other !! k) as [b|] eqn:E; simpl; [|done].
  destruct (single_at_items T b (Hw k b E)) as [v Hv]. rewrite Hv in *. simpl.
  split; [done|]. rewrite put_values_single in Hk.
  destruct (put ap (d !! k) (v, T)) as [b'|]; simpl in Hk; [|done].
  injection Hk as Hk. by exists b'.
Qed.

(** Merging a scope into the enclosing scope: the child's entry wins. *)
Lemma merge_scopes T d other d' :
  map_Forall (λ _ b, single_at T b) d →
  map_Forall (λ _ b, single_at T b) other →
  insert_buckets true d other = Some d' →
  map_Forall (λ _ b, single_at T b) d'
  ∧ ∀ k, latest d' k
         = match latest other k with Some e => Some e | None => latest d k end.
Proof.
  intros Hd Ho H.
  assert (Hput : ∀ k e b', e.2 = T → put true (d !! k) e = Some b' →
                           b' = Bucket [e] T).
  { intros k [v s] b' Hs Hb'. simpl in Hs. subst s.
    destruct (d !! k) as [b|] eqn:E.
    - destruct (single_at_items T b (Hd k b E)) as [v0 Hv0].
      rewrite put_replace in Hb'.
      + by injection Hb' as <-.
      + by rewrite Hv0.
      + rewrite Hv0. apply Forall_singleton. simpl. lia.
    - simpl in Hb'. by injection Hb' as <-. }
  split.
  - intros k b' Hb'. assert (Hk := merge_single_lookup T true d other d' k Ho H).
    destruct (latest other k) as [e|].
    + destruct Hk as (He & b1 & Hb1 & Hd').
      rewrite Hd' in Hb'. injection Hb' as <-.
      rewrite (Hput k e b1 He Hb1). split; [done|]. by apply Forall_singleton.
    + rewrite Hk in Hb'. by apply (Hd k).
  - intros k. assert (Hk := merge_single_lookup T true d other d' k Ho H).
    destruct (latest other k) as [e|].
    + destruct Hk as (He & b1 & Hb1 & Hd'). unfold latest. rewrite Hd'. simpl.
      by rewrite (Hput k e b1 He Hb1).
    + unfold latest. by rewrite Hk.
Qed.

Context (proj : TTDBTable.t → gmap string (bucket V)).
Hypothesis commit_table_proj : ∀ tab parent parent',
  TTDBTransaction.commit_table tab parent = Some (true, parent') →
  insert_buckets (autopurge parent) (proj parent) (proj tab) = Some (proj parent')
  ∧ autopurge parent' = autopurge parent.

(** A successful commit of a stack acts on the parent as the merge of one
    scope that holds, for every key, the entry of the stack. *)
Lemma commit_flat T x p p' :
  Forall (λ tab, autopurge tab = true
                 ∧ map_Forall (λ _ b, single_at T b) (proj tab)) (scopes x) →
  TTDBTransaction.commit x p = Some (true, p') →
  ∃ flat, map_Forall (λ _ b, single_at T b) flat
          ∧ (∀ k, latest flat k = stack_entry proj x k)
          ∧ insert_buckets (autopurge p) (proj p) flat = Some (proj p')
          ∧ autopurge p' = autopurge p.
Proof.
  revert p p'. induction x as [T0 tab|T0 tab sub IH] using transaction_ind;
    intros p p' Hx; simpl in *.
  - rewrite Forall_singleton in Hx. destruct Hx as [Hap Hw]. intros H.
    apply commit_table_proj in H as [H1 H2]. by exists (proj tab).
  - apply Forall_cons in Hx as [[Hap Hw] Hsub].
    destruct (TTDBTransaction.commit sub tab) as [[[] tab']|] eqn:E; simpl;
      [|done..].
    intros H. destruct (IH tab tab' Hsub E) as (flat & Hflat & Hlatest & Hins & Hap').
    rewrite Hap in Hins.
    destruct (merge_scopes T (proj tab) flat (proj tab') Hw Hflat Hins)
      as [Hw' Hl'].
    apply commit_table_proj in H as [H1 H2]. exists (proj tab').
    split; [done|]. split; [|done]. intros k. rewrite Hl', Hlatest.
    done.
Qed.

End stack.

Lemma update_true self tb ix self' :
  __update self tb ix = Some (true, self') →
  insert_buckets (autopurge self) (table self) tb = Some (table self')
  ∧ insert_buckets (autopurge self) (index self) ix = Some (index self')
  ∧ autopurge self' = autopurge self.
Proof.
  unfold __update. destruct (conflict (table self) tb); [done|].
  destruct (conflict (index self) ix); [done|].
  destruct (insert_buckets _ _ tb) as [tb'|]; simpl; [|done].
  destruct (insert_buckets _ _ ix) as [ix'|]; simpl; [|done].
  by intros [= <-].
Qed.

Lemma commit_table_true tab parent parent' :
  TTDBTransaction.commit_table tab parent = Some (true, parent') →
  insert_buckets (autopurge parent) (table parent) (table tab)
  = Some (table parent')
  ∧ insert_buckets (autopurge parent) (index parent) (index tab)
    = Some (index parent')
  ∧ autopurge parent' = autopurge parent.
Proof.
  unfold TTDBTransaction.commit_table, commit.
  destruct (__update parent (table tab) (index tab)) as [[[] p]|] eqn:E;
    simpl; [|done..].
  intros [= <-]. by apply update_true.
Qed.

Lemma commit_table_table tab parent parent' :
  TTDBTransaction.commit_table tab parent = Some (true, parent') →
  insert_buckets (autopurge parent) (table parent) (table tab)
  = Some (table parent')
  ∧ autopurge parent' = autopurge parent.
Proof. intros (? & ? & ?)%commit_table_true. done. Qed.

Lemma commit_table_index tab parent parent' :
  TTDBTransaction.commit_table tab parent = Some (true, parent') →
  insert_buckets (autopurge parent) (index parent) (index tab)
  = Some (index parent')
  ∧ autopurge parent' = autopurge parent.
Proof. intros (? & ? & ?)%commit_table_true. done. Qed.

Lemma nested_state_reached :
  run nested_trace (TTDB.init 20 0) = Some nested_state.
Proof. vm_compute. reflexivity. Qed.

(** C1: commit or nothing.  For a stack of scopes opened at [T] (every
    bucket of a scope holds one entry, written at [T]) over a parent
    table without autopurge, the commit returns, and
    - when it fails the parent table is what it was, read stamps
      included;
    - when it succeeds, a read of the parent at [T] returns, for every
      key and every value that the stack holds, the entry of the innermost
      scope that holds it, and the buckets of the other keys are what
      they were;
    - [__update] applies nothing when any key of the table or of the index
      fails the validation;
    - when the child scope's commit fails, the commit of the scope fails
      and its parent is what it was. *)
Theorem commit_or_nothing (x : TTDBTransaction.t) (root : TTDBTable.t) :
  Forall (scope_table (TTDBTransaction.timestamp x)) (scopes x) →
  Filled root → autopurge root = false →
  let T := TTDBTransaction.timestamp x in
  (∃ ok root',
     TTDBTransaction.commit x root = Some (ok, root')
     ∧ (ok = false → root' = root)
     ∧ (ok = true →
        (∀ k e, stack_entry table x k = Some e →
                (read_value root' [] k T).1.1 = e.1)
        ∧ (∀ v e, stack_entry index x v = Some e →
                  (read_index root' [] v T).1.1 = e.1)
        ∧ (∀ k, stack_entry table x k = None →
                table root' !! k = table root !! k)
        ∧ (∀ v, stack_entry index x v = None →
                index root' !! v = index root !! v)))
  ∧ (∀ p tb ix, conflict (table p) tb || conflict (index p) ix = true →
                __update p tb ix = Some (false, p))
  ∧ (∀ T' tab sub parent tab',
       TTDBTransaction.commit sub tab = Some (false, tab') →
       TTDBTransaction.commit (TTDBTransaction.Build T' tab (Some sub)) parent
       = Some (false, parent)).
Proof.
  intros Hx Hroot Hap T. split; [|split].
  - destruct (transaction_commit_filled x root Hroot) as (ok & root' & E & _).
    { eapply Forall_impl; [exact Hx|]. intros tab (_ & Ht & Hi).
      split; intros k b Hb; [destruct (Ht k b Hb) as [-> _]|
                             destruct (Hi k b Hb) as [-> _]]; lia. }
    exists ok, root'. split; [done|]. split.
    { intros ->. by apply transaction_commit_false in E. }
    intros ->.
    destruct (commit_flat table commit_table_table T x root root')
      as (ft & Hft & Hlt & Hit & _); [|done|].
    { eapply Forall_impl; [exact Hx|]. by intros tab (? & ? & _). }
    destruct (commit_flat index commit_table_index T x root root')
      as (fi & Hfi & Hli & Hii & _); [|done|].
    { eapply Forall_impl; [exact Hx|]. by intros tab (? & _ & ?). }
    rewrite Hap in Hit, Hii. split; [|split; [|split]].
    + intros k [v s] He. rewrite <-Hlt in He.
      assert (Hk := merge_single_lookup T false _ _ _ k Hft Hit).
      rewrite He in Hk. destruct Hk as (Hs & b' & Hb' & Hk). simpl in Hs. subst s.
      change ((read_value root' [] k T).1.1) with (value_at root' k T).
      rewrite value_at_lookup, Hk. simpl.
      by rewrite (scan_items_put _ _ _ _ _ Hb').
    + intros v [n s] He. rewrite <-Hli in He.
      assert (Hk := merge_single_lookup T false _ _ _ v Hfi Hii).
      rewrite He in Hk. destruct Hk as (Hs & b' & Hb' & Hk). simpl in Hs. subst s.
      change ((read_index root' [] v T).1.1) with (count_at root' v T).
      rewrite count_at_lookup, Hk. simpl.
      by rewrite (scan_items_put _ _ _ _ _ Hb').
    + intros k He. rewrite <-Hlt in He.
      assert (Hk := merge_single_lookup T false _ _ _ k Hft Hit).
      by rewrite He in Hk.
    + intros v He. rewrite <-Hli in He.
      assert (Hk := merge_single_lookup T false _ _ _ v Hfi Hii).
      by rewrite He in Hk.
  - intros p tb ix H. unfold __update.
    destruct (conflict (table p) tb); [done|]. simpl in H. by rewrite H.
  - intros T' tab sub parent tab' H. simpl. by rewrite H.
Qed.

Lemma commit_or_nothing_witness :
  Forall (scope_table (TTDBTransaction.timestamp nested_stack))
         (scopes nested_stack)
  ∧ Filled (TTDB.ttable nested_state)
  ∧ autopurge (TTDB.ttable nested_state) = false
  ∧ ∃ ok root',
      TTDBTransaction.commit nested_stack (TTDB.ttable nested_state)
      = Some (ok, root')
      ∧ (ok = false → root' = TTDB.ttable nested_state)
      ∧ (ok = true → (read_value root' [] "a" 2).1.1 = Some "2").
Proof.
  assert (H1 : Forall (scope_table (TTDBTransaction.timestamp nested_stack))
                      (scopes nested_stack))
    by (unfold scope_table, single_at; compute_done).
  assert (H2 : Filled (TTDB.ttable nested_state))
    by (unfold Filled, filled; compute_done).
  assert (H3 : autopurge (TTDB.ttable nested_state) = false) by reflexivity.
  split; [exact H1|split; [exact H2|split; [exact H3|]]].
  destruct (proj1 (commit_or_nothing nested_stack (TTDB.ttable nested_state)
                     H1 H2 H3)) as (ok & root' & E & Hfalse & Htrue).
  exists ok, root'. split; [exact E|]. split; [exact Hfalse|].
  intros Hok. exact (proj1 (Htrue Hok) "a" (Some "2", 2) eq_refl).
Defined.

(** ** What the operations preserve *)

Section preserve.
Context {V : Type}.
Implicit Types (d : gmap string (bucket V)) (its : list (V * Z)).

(** A property of the entry sequences carries over to a dictionary with
    the same entries. *)
Lemma map_Forall_entries (P : list (V * Z) → Prop) d d' :
  entries d' = entries d →
  map_Forall (λ _ b, P (items b)) d → map_Forall (λ _ b, P (items b)) d'.
Proof.
  intros He H k b' Hb'.
  assert (Hk : entries d' !! k = Some (items b')) by (by rewrite entries_lookup, Hb').
  rewrite He, entries_lookup in Hk. destruct (d !! k) as [b|] eqn:E; [|done].
  simpl in Hk. injection Hk as <-. by apply (H k b).
Qed.

Lemma put_Forall (P : V * Z → Prop) ap (ob : option (bucket V)) e b' :
  put ap ob e = Some b' →
  (∀ b, ob = Some b → Forall P (items b)) → P e → Forall P (items b').
Proof.
  destruct ob as [b|]; simpl.
  - destruct (insert_position (items b) e.2) as [i|]; simpl; [|done].
    intros [= <-] Hb He. specialize (Hb b eq_refl). simpl. destruct ap.
    + apply Forall_cons. split; [done|by apply Forall_drop].
    + apply Forall_app. split; [by apply Forall_take|].
      apply Forall_cons. split; [done|by apply Forall_drop].
  - intros [= <-] _ He. by apply Forall_singleton.
Qed.

Lemma sorted_placed its v T :
  StronglySorted (λ x y : V * Z, x.2 < y.2) its →
  Forall (λ it : V * Z, it.2 ≠ T) its →
  StronglySorted (λ x y : V * Z, x.2 < y.2)
    (take (scan_position its T 0) its ++ (v, T) :: drop (scan_position its T 0) its).
Proof.
  intros Hs. induction Hs as [|x r Hs IH Hx]; intros Hne; simpl.
  - repeat constructor.
  - apply Forall_cons in Hne as [Hx' Hne].
    destruct (Z.gtb_spec x.2 T) as [Hgt|Hle]; simpl.
    + constructor; [by constructor|]. apply Forall_cons. split; [simpl; lia|].
      eapply Forall_impl; [exact Hx|]. simpl. intros. lia.
    + rewrite scan_position_shift. simpl. constructor; [by apply IH|].
      apply Forall_app. split; [by apply Forall_take|].
      apply Forall_cons. split; [simpl; lia|by apply Forall_drop].
Qed.

(** An insert at a stamp that the bucket does not hold keeps a bucket
    without autopurge strictly increasing. *)
Lemma put_increasing (ob : option (bucket V)) v T b' :
  put false ob (v, T) = Some b' →
  (∀ b, ob = Some b → increasing b ∧ Forall (λ it : V * Z, it.2 ≠ T) (items b)) →
  increasing b'.
Proof.
  unfold increasing. destruct ob as [b|]; cbn [put mbind option_bind snd].
  - destruct (insert_position (items b) T) as [i|] eqn:Ei; [|done].
    assert (i = scan_position (items b) T 0) as ->.
    { unfold insert_position in Ei. destruct (items b); [done|]. by injection Ei. }
    intros [= <-] Hb. destruct (Hb b eq_refl). by apply sorted_placed.
  - intros [= <-] _. repeat constructor.
Qed.

(** In a scope opened at [T], an insert at [T] leaves one entry. *)
Lemma put_single (ob : option (bucket V)) v T b' :
  put true ob (v, T) = Some b' →
  (∀ b, ob = Some b → single_at T b) →
  single_at T b'.
Proof.
  intros Hput Hob. destruct ob as [b|].
  - destruct (single_at_items T b (Hob b eq_refl)) as [v0 Hv0].
    rewrite put_replace in Hput.
    + injection Hput as <-. split; [done|]. by apply Forall_singleton.
    + by rewrite Hv0.
    + rewrite Hv0. apply Forall_singleton. simpl. lia.
  - simpl in Hput. injection Hput as <-. split; [done|]. by apply Forall_singleton.
Qed.

Lemma insert_single d k v T :
  map_Forall (λ _ b, single_at T b) d →
  ∃ d', __insert true d k (v, T) = Some d'
        ∧ map_Forall (λ _ b, single_at T b) d'.
Proof.
  intros Hd. rewrite insert_put.
  destruct (put_is_Some true (d !! k) (v, T)) as [b' Hb'].
  { intros b Hb. destruct (single_at_items T b (Hd k b Hb)) as [v0 Hv0].
    by rewrite Hv0. }
  rewrite Hb'. simpl. eexists. split; [done|].
  apply map_Forall_insert_2; [|done]. apply (put_single _ _ _ _ Hb').
  intros b Hb. by apply (Hd k).
Qed.

Lemma single_read_item d k t T :
  map_Forall (λ _ b, single_at T b) d →
  map_Forall (λ _ b, single_at T b) (__read_item d k t).2.
Proof.
  apply (map_Forall_entries
           (λ its, length its = 1%nat ∧ Forall (λ it : V * Z, it.2 = T) its)).
  apply entries_read_item.
Qed.

End preserve.

(** ** Reads change read stamps only *)

Lemma same_entries_refl tab : same_entries tab tab.
Proof. by repeat split. Qed.

Lemma same_entries_trans a b c :
  same_entries a b → same_entries b c → same_entries a c.
Proof.
  intros (H1 & H2 & H3) (H4 & H5 & H6). repeat split; congruence.
Qed.

Lemma same_entries_set_table self k t :
  same_entries self (set_table self (__read_item (table self) k t).2).
Proof. split; [done|]. split; [apply entries_read_item|done]. Qed.

Lemma same_entries_set_index self k t :
  same_entries self (set_index self (__read_item (index self) k t).2).
Proof. split; [done|]. split; [done|apply entries_read_item]. Qed.

Lemma read_value_same self parents k t :
  same_entries self (read_value self parents k t).1.2
  ∧ Forall2 same_entries parents (read_value self parents k t).2.
Proof.
  revert self. induction parents as [|p ps IH]; intros self; simpl.
  - destruct (__read_item (table self) k t) as [[rp|] tb] eqn:E; simpl;
      (split; [|done]);
      replace tb with (__read_item (table self) k t).2 by (by rewrite E);
      apply same_entries_set_table.
  - destruct (__read_item (table self) k t) as [[rp|] tb] eqn:E; simpl.
    + split; [|apply Forall2_same_length_lookup_2; [done|];
               intros i x y Hx Hy; rewrite Hx in Hy; injection Hy as <-;
               apply same_entries_refl].
      replace tb with (__read_item (table self) k t).2 by (by rewrite E).
      apply same_entries_set_table.
    + destruct (IH p) as [H1 H2].
      destruct (read_value p ps k t) as [[v p'] ps']. simpl in *.
      split; [|by constructor].
      replace tb with (__read_item (table self) k t).2 by (by rewrite E).
      apply same_entries_set_table.
Qed.

Lemma read_index_same self parents v t :
  same_entries self (read_index self parents v t).1.2
  ∧ Forall2 same_entries parents (read_index self parents v t).2.
Proof.
  revert self. induction parents as [|p ps IH]; intros self; simpl.
  - destruct (__read_item (index self) v t) as [[rp|] ix] eqn:E; simpl;
      (split; [|done]);
      replace ix with (__read_item (index self) v t).2 by (by rewrite E);
      apply same_entries_set_index.
  - destruct (__read_item (index self) v t) as [[rp|] ix] eqn:E; simpl.
    + split; [|apply Forall2_same_length_lookup_2; [done|];
               intros i x y Hx Hy; rewrite Hx in Hy; injection Hy as <-;
               apply same_entries_refl].
      replace ix with (__read_item (index self) v t).2 by (by rewrite E).
      apply same_entries_set_index.
    + destruct (IH p) as [H1 H2].
      destruct (read_index p ps v t) as [[n p'] ps']. simpl in *.
      split; [|by constructor].
      replace ix with (__read_item (index self) v t).2 by (by rewrite E).
      apply same_entries_set_index.
Qed.

Lemma Forall2_same_entries_trans l1 l2 l3 :
  Forall2 same_entries l1 l2 → Forall2 same_entries l2 l3 →
  Forall2 same_entries l1 l3.
Proof.
  intros H. revert l3. induction H as [|a b l1 l2 Hab _ IH]; intros l3 H3.
  - by inversion H3.
  - inversion H3 as [|? c ? l3' Hbc Hrest]; subst. constructor.
    + by eapply same_entries_trans.
    + by apply IH.
Qed.

Lemma scope_table_same T tab tab' :
  same_entries tab tab' → scope_table T tab → scope_table T tab'.
Proof.
  intros (Hap & Ht & Hi) (H1 & H2 & H3). split; [congruence|]. split.
  - revert H2. by apply (map_Forall_entries
      (λ its, length its = 1%nat ∧ Forall (λ it : option string * Z, it.2 = T) its)).
  - revert H3. by apply (map_Forall_entries
      (λ its, length its = 1%nat ∧ Forall (λ it : Z * Z, it.2 = T) its)).
Qed.

Lemma root_ok_same c tab tab' :
  same_entries tab tab' → root_ok c tab → root_ok c tab'.
Proof.
  intros (Hap & Ht & Hi) (H1 & [H2 H2'] & [H3 H3'] & H4 & H5).
  split; [congruence|]. split; [|split; [|split]].
  - split.
    + revert H2. by apply (map_Forall_entries (λ its, (0 < length its)%nat)).
    + revert H2'. by apply (map_Forall_entries (λ its, (0 < length its)%nat)).
  - split.
    + revert H3. by apply (map_Forall_entries
        (λ its, StronglySorted (λ x y : option string * Z, x.2 < y.2) its)).
    + revert H3'. by apply (map_Forall_entries
        (λ its, StronglySorted (λ x y : Z * Z, x.2 < y.2) its)).
  - revert H4. by apply (map_Forall_entries
      (λ its, Forall (λ it : option string * Z, it.2 ≤ c) its)).
  - revert H5. by apply (map_Forall_entries
      (λ its, Forall (λ it : Z * Z, it.2 ≤ c) its)).
Qed.

Lemma unused_same T tab tab' :
  same_entries tab tab' → unused T tab → unused T tab'.
Proof.
  intros (Hap & Ht & Hi) [H1 H2]. split.
  - revert H1. by apply (map_Forall_entries
      (λ its, Forall (λ it : option string * Z, it.2 ≠ T) its)).
  - revert H2. by apply (map_Forall_entries
      (λ its, Forall (λ it : Z * Z, it.2 ≠ T) its)).
Qed.

(** ** Writes inside a scope *)

Lemma adjust_index_scope T self parents w δ :
  scope_table T self →
  ∃ self' parents', adjust_index self parents w δ T = Some (self', parents')
     ∧ scope_table T self' ∧ Forall2 same_entries parents parents'.
Proof.
  intros Hs. unfold adjust_index.
  destruct (read_index_same self parents w T) as [H1 H2].
  destruct (read_index self parents w T) as [[n self1] parents1]. simpl in *.
  destruct (scope_table_same T _ _ H1 Hs) as (Hap & Ht & Hi).
  rewrite Hap. destruct (insert_single (index self1) w (n + δ) T Hi)
    as (ix & -> & Hix).
  simpl. eexists _, _. split; [done|]. split; [|done]. by split.
Qed.

Lemma write_value_scope T self parents k v :
  scope_table T self →
  ∃ self' parents', write_value self parents k v T = Some (self', parents')
     ∧ scope_table T self' ∧ Forall2 same_entries parents parents'.
Proof.
  intros Hs. unfold write_value.
  destruct (read_value_same self parents k T) as [H1 H2].
  destruct (read_value self parents k T) as [[old self1] parents1]. simpl in *.
  destruct (scope_table_same T _ _ H1 Hs) as (Hap & Ht & Hi).
  rewrite Hap. destruct (insert_single (table self1) k v T Ht) as (tb & -> & Htb).
  simpl. set (self2 := set_table self1 tb).
  assert (Hs2 : scope_table T self2) by done.
  assert (Hfirst : ∃ self3 parents3,
    match old with
    | Some o => if decide (old ≠ v) then adjust_index self2 parents1 o (-1) T
                else Some (self2, parents1)
    | None => Some (self2, parents1)
    end = Some (self3, parents3)
    ∧ scope_table T self3 ∧ Forall2 same_entries parents parents3).
  { destruct old as [o|]; [destruct (decide (Some o ≠ v))|].
    - destruct (adjust_index_scope T self2 parents1 o (-1) Hs2)
        as (s3 & p3 & -> & Hs3 & Hp3).
      exists s3, p3. split; [done|]. split; [done|].
      by eapply Forall2_same_entries_trans.
    - by exists self2, parents1.
    - by exists self2, parents1. }
  destruct Hfirst as (self3 & parents3 & -> & Hs3 & Hp3). simpl.
  destruct v as [n|]; [destruct (decide (old ≠ Some n))|].
  - destruct (adjust_index_scope T self3 parents3 n 1 Hs3)
      as (s4 & p4 & -> & Hs4 & Hp4).
    exists s4, p4. split; [done|]. split; [done|].
    by eapply Forall2_same_entries_trans.
  - by exists self3, parents3.
  - by exists self3, parents3.
Qed.

Lemma scoped_timestamp T x : scoped T x → TTDBTransaction.timestamp x = T.
Proof. destruct x as [T0 tab [sub|]]; by intros [? _]. Qed.

Lemma transaction_write_scoped T x parents k v :
  scoped T x →
  ∃ x' parents', TTDBTransaction.write x parents k v = Some (x', parents')
     ∧ scoped T x' ∧ Forall2 same_entries parents parents'.
Proof.
  revert parents. induction x as [T0 tab|T0 tab sub IH] using transaction_ind;
    intros parents; simpl.
  - intros (HT & Hs & _). simpl in HT. subst T0.
    destruct (write_value_scope T tab parents k v Hs) as (tab' & ps & -> & Hs' & Hp).
    simpl. by eexists _, _.
  - intros (HT & Hs & Hsub). simpl in HT. subst T0.
    destruct (IH (tab :: parents) Hsub) as (sub' & chain & -> & Hsub' & Hc).
    simpl. inversion Hc as [|? tab' ? ps Htab Hps]; subst. simpl.
    eexists _, _. split; [done|]. split; [|done].
    simpl. split; [done|]. split; [|done]. by eapply scope_table_same.
Qed.

Lemma transaction_get_scoped T x parents k :
  scoped T x →
  scoped T (TTDBTransaction.get x parents k).1.2
  ∧ Forall2 same_entries parents (TTDBTransaction.get x parents k).2.
Proof.
  revert parents. induction x as [T0 tab|T0 tab sub IH] using transaction_ind;
    intros parents; simpl.
  - intros (HT & Hs & _). simpl in HT. subst T0.
    destruct (read_value_same tab parents k T) as [H1 H2].
    destruct (read_value tab parents k T) as [[v tab'] ps]. simpl in *.
    split; [|done]. split; [done|]. split; [|done]. by eapply scope_table_same.
  - intros (HT & Hs & Hsub). simpl in HT. subst T0.
    destruct (IH (tab :: parents) Hsub) as [Hsub' Hc].
    destruct (TTDBTransaction.get sub (tab :: parents) k) as [[v sub'] chain].
    simpl in *. inversion Hc as [|? tab' ? ps Htab Hps]; subst. simpl.
    split; [|done]. split; [done|]. split; [|done]. by eapply scope_table_same.
Qed.

Lemma transaction_numequalto_scoped T x parents v :
  scoped T x →
  scoped T (TTDBTransaction.numequalto x parents v).1.2
  ∧ Forall2 same_entries parents (TTDBTransaction.numequalto x parents v).2.
Proof.
  revert parents. induction x as [T0 tab|T0 tab sub IH] using transaction_ind;
    intros parents; simpl.
  - intros (HT & Hs & _). simpl in HT. subst T0.
    destruct (read_index_same tab parents v T) as [H1 H2].
    destruct (read_index tab parents v T) as [[n tab'] ps]. simpl in *.
    split; [|done]. split; [done|]. split; [|done]. by eapply scope_table_same.
  - intros (HT & Hs & Hsub). simpl in HT. subst T0.
    destruct (IH (tab :: parents) Hsub) as [Hsub' Hc].
    destruct (TTDBTransaction.numequalto sub (tab :: parents) v) as [[n sub'] chain].
    simpl in *. inversion Hc as [|? tab' ? ps Htab Hps]; subst. simpl.
    split; [|done]. split; [done|]. split; [|done]. by eapply scope_table_same.
Qed.

Lemma scope_table_init T now :
  scope_table T (TTDBTable.init true None 20 now).
Proof. split; [done|]. split; apply map_Forall_empty. Qed.

Lemma transaction_begin_scoped T x now :
  scoped T x → scoped T (TTDBTransaction.begin x now).
Proof.
  induction x as [T0 tab|T0 tab sub IH] using transaction_ind; simpl.
  - intros (HT & Hs & _). simpl in HT. subst T0. split; [done|]. split; [done|].
    split; [done|]. split; [apply scope_table_init|done].
  - intros (HT & Hs & Hsub). simpl in HT. subst T0. split; [done|]. split; [done|]. by apply IH.
Qed.

Lemma transaction_rollback_scoped T x x' :
  scoped T x → TTDBTransaction.rollback x = Some x' → scoped T x'.
Proof.
  revert x'. induction x as [T0 tab|T0 tab sub IH] using transaction_ind;
    intros x'; simpl; [done|].
  intros (HT & Hs & Hsub) [= <-]. simpl in HT. subst T0. simpl. split; [done|]. split; [done|].
  destruct (TTDBTransaction.rollback sub) as [sub'|] eqn:E; [|done].
  by apply IH.
Qed.

(** ** A purge keeps a sublist of every bucket *)

Section sublists.
Context {A : Type}.

Lemma Forall_sublist (P : A → Prop) (l1 l2 : list A) :
  l1 `sublist_of` l2 → Forall P l2 → Forall P l1.
Proof.
  induction 1 as [|x l1 l2 _ IH|x l1 l2 _ IH]; intros H; [done|..].
  - apply Forall_cons in H as [? ?]. constructor; [done|by apply IH].
  - apply Forall_cons in H as [? ?]. by apply IH.
Qed.

Lemma StronglySorted_sublist (R : relation A) (l1 l2 : list A) :
  l1 `sublist_of` l2 → StronglySorted R l2 → StronglySorted R l1.
Proof.
  induction 1 as [|x l1 l2 Hsub IH|x l1 l2 _ IH]; intros H; [done|..].
  - apply StronglySorted_inv in H as [H1 H2]. constructor; [by apply IH|].
    by eapply Forall_sublist.
  - apply StronglySorted_inv in H as [H1 H2]. by apply IH.
Qed.

End sublists.

Lemma retain_sublist {V} horizon (b : bucket V) :
  items (retain horizon b) `sublist_of` items b
  ∧ ((0 < length (items b))%nat → (0 < length (items (retain horizon b)))%nat).
Proof.
  rewrite retain_items.
  destruct (filter (λ it : V * Z, horizon < it.2) (items b)) as [|y out] eqn:E.
  - rewrite <-drop_last. split; [apply sublist_drop|].
    intros Hlen. rewrite length_drop. lia.
  - rewrite <-E. split; [apply sublist_filter|]. rewrite E. simpl. lia.
Qed.

Lemma purge_table_bucket_sublist horizon b b' :
  purge_table_bucket horizon b = Some b' →
  items b' `sublist_of` items b
  ∧ ((0 < length (items b))%nat → (0 < length (items b'))%nat).
Proof.
  unfold purge_table_bucket.
  destruct (items b) as [|[[v|] s] [|y r]] eqn:E; intros [= <-];
    rewrite <-?E; try apply retain_sublist; by rewrite E.
Qed.

Lemma purge_index_bucket_sublist horizon b b' :
  purge_index_bucket horizon b = Some b' →
  items b' `sublist_of` items b
  ∧ ((0 < length (items b))%nat → (0 < length (items b'))%nat).
Proof.
  unfold purge_index_bucket.
  destruct (items b) as [|[n s] [|y r]] eqn:E.
  - intros [= <-]. by rewrite E.
  - destruct (n >? 0); intros [= <-]. by rewrite E.
  - intros [= <-]. rewrite <-E. apply retain_sublist.
Qed.

(** A purge leaves in every bucket a non-empty sublist of its entries. *)
Lemma purge_entries_sublists root horizon now :
  let purged := purge_entries root horizon now in
  autopurge purged = autopurge root
  ∧ (∀ k b', table purged !! k = Some b' →
       ∃ b, table root !! k = Some b ∧ items b' `sublist_of` items b
            ∧ ((0 < length (items b))%nat → (0 < length (items b'))%nat))
  ∧ (∀ k b', index purged !! k = Some b' →
       ∃ b, index root !! k = Some b ∧ items b' `sublist_of` items b
            ∧ ((0 < length (items b))%nat → (0 < length (items b'))%nat)).
Proof.
  simpl. unfold purge_entries.
  destruct (now - purge_stamp root <? purge_period root * 1000000).
  { split; [done|]. split; intros k b' Hb'; by exists b'. }
  simpl. split; [done|]. split; intros k b' Hb'; rewrite lookup_omap in Hb';
    [destruct (table root !! k) as [b|]|destruct (index root !! k) as [b|]];
    simpl in Hb'; try done; exists b; (split; [done|]).
  - by apply purge_table_bucket_sublist in Hb'.
  - by apply purge_index_bucket_sublist in Hb'.
Qed.

Lemma root_ok_purge c root horizon now :
  root_ok c root → root_ok c (purge_entries root horizon now).
Proof.
  intros (Hap & [Hf1 Hf2] & [Hs1 Hs2] & Hw1 & Hw2).
  destruct (purge_entries_sublists root horizon now) as (Hap' & Ht & Hi).
  split; [congruence|]. split; [|split; [|split]].
  - split; intros k b' Hb'.
    + destruct (Ht k b' Hb') as (b & Hb & _ & Hlen). by apply Hlen, (Hf1 k b).
    + destruct (Hi k b' Hb') as (b & Hb & _ & Hlen). by apply Hlen, (Hf2 k b).
  - split; intros k b' Hb'.
    + destruct (Ht k b' Hb') as (b & Hb & Hsub & _).
      eapply StronglySorted_sublist; [exact Hsub|]. by apply (Hs1 k b).
    + destruct (Hi k b' Hb') as (b & Hb & Hsub & _).
      eapply StronglySorted_sublist; [exact Hsub|]. by apply (Hs2 k b).
  - intros k b' Hb'. destruct (Ht k b' Hb') as (b & Hb & Hsub & _).
    eapply Forall_sublist; [exact Hsub|]. by apply (Hw1 k b).
  - intros k b' Hb'. destruct (Hi k b' Hb') as (b & Hb & Hsub & _).
    eapply Forall_sublist; [exact Hsub|]. by apply (Hw2 k b).
Qed.

Lemma unused_purge T root horizon now :
  unused T root → unused T (purge_entries root horizon now).
Proof.
  intros [H1 H2].
  destruct (purge_entries_sublists root horizon now) as (_ & Ht & Hi).
  split; intros k b' Hb'.
  - destruct (Ht k b' Hb') as (b & Hb & Hsub & _).
    eapply Forall_sublist; [exact Hsub|]. by apply (H1 k b).
  - destruct (Hi k b' Hb') as (b & Hb & Hsub & _).
    eapply Forall_sublist; [exact Hsub|]. by apply (H2 k b).
Qed.

(** ** A commit into the root *)

Lemma scoped_scopes T x : scoped T x → Forall (scope_table T) (scopes x).
Proof.
  induction x as [T0 tab|T0 tab sub IH] using transaction_ind; simpl;
    intros (HT & Hs & Hsub); constructor; auto.
Qed.

Lemma merged_Forall {V} (P Q : bucket V → Prop) T
    (d flat d' : gmap string (bucket V)) :
  map_Forall (λ _ b, single_at T b) flat →
  insert_buckets false d flat = Some d' →
  map_Forall (λ _, P) d →
  (∀ b, P b → Q b) →
  (∀ ob e b', (∀ b, ob = Some b → P b) → e.2 = T →
              put false ob e = Some b' → Q b') →
  map_Forall (λ _, Q) d'.
Proof.
  intros Hflat Hins Hd HPQ Hput k b' Hb'.
  assert (Hk := merge_single_lookup T false d flat d' k Hflat Hins).
  destruct (latest flat k) as [e|].
  - destruct Hk as (He & b1 & Hb1 & Hd'). rewrite Hd' in Hb'. injection Hb' as <-.
    apply (Hput (d !! k) e b1); [|done|done]. intros b Hb. by apply (Hd k).
  - rewrite Hk in Hb'. by apply HPQ, (Hd k).
Qed.

Lemma merged_ok {V} c T (d flat d' : gmap string (bucket V)) :
  map_Forall (λ _ b, single_at T b) flat →
  insert_buckets false d flat = Some d' →
  T ≤ c →
  filled d → map_Forall (λ _ b, increasing b) d → written_by c d →
  map_Forall (λ _ b, Forall (λ it : V * Z, it.2 ≠ T) (items b)) d →
  filled d' ∧ map_Forall (λ _ b, increasing b) d' ∧ written_by c d'
  ∧ ∀ T', T' ≠ T →
      map_Forall (λ _ b, Forall (λ it : V * Z, it.2 ≠ T') (items b)) d →
      map_Forall (λ _ b, Forall (λ it : V * Z, it.2 ≠ T') (items b)) d'.
Proof.
  intros Hflat Hins HT Hf Hs Hw Hu. split; [|split; [|split]].
  - apply (merged_Forall (λ b, (0 < length (items b))%nat) _ T d flat d');
      try done.
    intros ob e b' Hob _ Hput. apply put_nonempty in Hput.
    destruct (items b'); [done|simpl; lia].
  - apply (merged_Forall
             (λ b, increasing b ∧ Forall (λ it : V * Z, it.2 ≠ T) (items b))
             _ T d flat d'); try done.
    + intros k b Hb. split; [by apply (Hs k)|by apply (Hu k)].
    + by intros b [? _].
    + intros ob [v s] b' Hob He Hput. simpl in He. subst s.
      by apply (put_increasing ob v T).
  - apply (merged_Forall (λ b, Forall (λ it : V * Z, it.2 ≤ c) (items b))
             _ T d flat d'); try done.
    intros ob e b' Hob He Hput. apply (put_Forall _ _ _ _ _ Hput); [done|lia].
  - intros T' HT' Hu'.
    apply (merged_Forall (λ b, Forall (λ it : V * Z, it.2 ≠ T') (items b))
             _ T d flat d'); try done.
    intros ob e b' Hob He Hput. apply (put_Forall _ _ _ _ _ Hput); [done|].
    congruence.
Qed.

Lemma commit_root_ok c T x root root' :
  root_ok c root → scoped T x → T ≤ c → unused T root →
  TTDBTransaction.commit x root = Some (true, root') →
  root_ok c root' ∧ ∀ T', T' ≠ T → unused T' root → unused T' root'.
Proof.
  intros (Hap & [Hf1 Hf2] & [Hs1 Hs2] & Hw1 & Hw2) Hx HT [Hu1 Hu2] E.
  apply scoped_scopes in Hx.
  destruct (commit_flat table commit_table_table T x root root')
    as (ft & Hft & _ & Hit & Hap'); [|done|].
  { eapply Forall_impl; [exact Hx|]. by intros tab (? & ? & _). }
  destruct (commit_flat index commit_table_index T x root root')
    as (fi & Hfi & _ & Hii & _); [|done|].
  { eapply Forall_impl; [exact Hx|]. by intros tab (? & _ & ?). }
  rewrite Hap in Hit, Hii.
  destruct (merged_ok c T _ _ _ Hft Hit HT Hf1 Hs1 Hw1 Hu1) as (A1 & A2 & A3 & A4).
  destruct (merged_ok c T _ _ _ Hfi Hii HT Hf2 Hs2 Hw2 Hu2) as (B1 & B2 & B3 & B4).
  split.
  - split; [congruence|]. by repeat split.
  - intros T' HT' [Hu1' Hu2']. split; [by apply A4|by apply B4].
Qed.

(** ** The invariant, handler by handler *)

Lemma written_by_unused {V} c T (d : gmap string (bucket V)) :
  written_by c d → c < T →
  map_Forall (λ _ b, Forall (λ it : V * Z, it.2 ≠ T) (items b)) d.
Proof.
  intros H Hlt k b Hb. eapply Forall_impl; [apply (H k b Hb)|].
  simpl. intros. lia.
Qed.

Lemma invariant_mono c c' st : c ≤ c' → invariant c st → invariant c' st.
Proof.
  intros Hle ((Hap & Hf & Hs & Hw1 & Hw2) & Hx & Hd). split; [|split; [|done]].
  - split; [done|]. split; [done|]. split; [done|].
    split; by eapply written_by_mono.
  - intros s x Hsx. destruct (Hx s x Hsx) as (? & ? & ?).
    split; [lia|]. by split.
Qed.

Lemma invariant_root c st root' :
  invariant c st → same_entries (TTDB.ttable st) root' →
  invariant c (TTDB.Build root' (TTDB.transactions st) (TTDB.purge_period st)).
Proof.
  intros (Hroot & Hx & Hd) Hsame. split; [|split; [|done]].
  - by eapply root_ok_same.
  - intros s x Hsx. destruct (Hx s x Hsx) as (? & ? & ?).
    split; [done|]. split; [done|]. by eapply unused_same.
Qed.

Lemma invariant_delete c st s :
  invariant c st →
  invariant c (TTDB.Build (TTDB.ttable st) (delete s (TTDB.transactions st))
                          (TTDB.purge_period st)).
Proof.
  intros (Hroot & Hx & Hd). split; [done|]. split.
  - intros s' x Hsx. simpl in Hsx. apply lookup_delete_Some in Hsx as [_ Hsx].
    by apply (Hx s').
  - intros s1 s2 x1 x2 Hne H1 H2. simpl in *.
    apply lookup_delete_Some in H1 as [_ H1].
    apply lookup_delete_Some in H2 as [_ H2]. by apply (Hd s1 s2).
Qed.

Lemma invariant_update c st s x x' :
  invariant c st → TTDB.transactions st !! s = Some x →
  scoped (TTDBTransaction.timestamp x) x' →
  invariant c (TTDB.Build (TTDB.ttable st) (<[s := x']> (TTDB.transactions st))
                          (TTDB.purge_period st)).
Proof.
  intros (Hroot & Hx & Hd) Hsx Hx'. assert (HT := scoped_timestamp _ _ Hx').
  destruct (Hx s x Hsx) as (Hle & _ & Hu). split; [done|]. split.
  - intros s' y Hy. simpl in Hy. apply lookup_insert_Some in Hy as [[<- <-]|[_ Hy]].
    + rewrite HT. split; [done|]. by split.
    + by apply (Hx s').
  - intros s1 s2 x1 x2 Hne H1 H2. simpl in *.
    apply lookup_insert_Some in H1 as [[<- <-]|[? H1]];
      apply lookup_insert_Some in H2 as [[<- <-]|[? H2]]; try done.
    + rewrite HT. by apply (Hd s s2 x x2).
    + rewrite HT. by apply (Hd s1 s x1 x).
    + by apply (Hd s1 s2).
Qed.

Lemma invariant_open c st s now :
  invariant c st → TTDB.transactions st !! s = None → c < now →
  invariant now
    (TTDB.Build (TTDB.ttable st)
       (<[s := TTDBTransaction.init None now]> (TTDB.transactions st))
       (TTDB.purge_period st)).
Proof.
  intros Hinv Hnone Hlt.
  destruct (invariant_mono c now st ltac:(lia) Hinv) as (Hroot & Hx & Hd).
  destruct Hinv as ((_ & _ & _ & Hw1 & Hw2) & Hx0 & _).
  split; [done|]. split.
  - intros s' y Hy. simpl in Hy. apply lookup_insert_Some in Hy as [[<- <-]|[_ Hy]].
    + simpl. split; [lia|]. split.
      * split; [done|]. split; [apply scope_table_init|done].
      * split; by eapply written_by_unused.
    + by apply (Hx s').
  - intros s1 s2 x1 x2 Hne H1 H2. simpl in *.
    apply lookup_insert_Some in H1 as [[<- <-]|[? H1]];
      apply lookup_insert_Some in H2 as [[<- <-]|[? H2]]; try done.
    + simpl. destruct (Hx0 s2 x2 H2) as (? & _). lia.
    + simpl. destruct (Hx0 s1 x1 H1) as (? & _). lia.
    + by apply (Hd s1 s2).
Qed.

Lemma invariant_reset c now period purge_period :
  invariant c (TTDB.Build (TTDBTable.init false None period now) ∅ purge_period).
Proof.
  split; [|split].
  - split; [done|]. repeat split; apply map_Forall_empty.
  - intros s x Hsx. simpl in Hsx. by rewrite lookup_empty in Hsx.
  - intros s1 s2 x1 x2 _ H1. simpl in H1. by rewrite lookup_empty in H1.
Qed.

Lemma begin_timestamp x now :
  TTDBTransaction.timestamp (TTDBTransaction.begin x now)
  = TTDBTransaction.timestamp x.
Proof. destruct x as [T tab [sub|]]; done. Qed.

Lemma begin_invariant c st s now :
  invariant c st →
  (TTDB.transactions st !! s = None → c < now) →
  invariant (if bool_decide (TTDB.transactions st !! s = None) then now else c)
            (TTDB.begin st s now).1.
Proof.
  intros Hinv Hlt. unfold TTDB.begin.
  destruct (TTDB.transactions st !! s) as [x|] eqn:Hsx; simpl.
  - apply (invariant_update c st s x); [done..|].
    destruct Hinv as (_ & Hx & _). destruct (Hx s x Hsx) as (_ & Hs & _).
    by apply transaction_begin_scoped.
  - apply (invariant_open c); auto.
Qed.

Lemma rollback_invariant c st s :
  invariant c st → invariant c (TTDB.rollback st s).1.
Proof.
  intros Hinv. unfold TTDB.rollback.
  destruct (TTDB.transactions st !! s) as [x|] eqn:Hsx; simpl; [|done].
  destruct (TTDBTransaction.rollback x) as [x'|] eqn:E.
  - apply (invariant_update c st s x); [done..|].
    destruct Hinv as (_ & Hx & _). destruct (Hx s x Hsx) as (_ & Hs & _).
    by eapply transaction_rollback_scoped.
  - by apply invariant_delete.
Qed.

Lemma get_invariant c st k s now :
  invariant c st → invariant c (TTDB.get st k s now).1.
Proof.
  intros Hinv. unfold TTDB.get.
  destruct (TTDB.transactions st !! s) as [x|] eqn:Hsx.
  - assert (Hs : scoped (TTDBTransaction.timestamp x) x).
    { destruct Hinv as (_ & Hx & _). by destruct (Hx s x Hsx) as (_ & ? & _). }
    destruct (transaction_get_scoped _ x [TTDB.ttable st] k Hs) as [Hs' Hc].
    destruct (TTDBTransaction.get x [TTDB.ttable st] k) as [[v x'] chain].
    simpl in *. inversion Hc as [|? root' ? ps Hroot Hps]; subst.
    inversion Hps; subst. simpl.
    apply (invariant_update c (TTDB.Build root' _ _) s x); [|done|done].
    by apply invariant_root.
  - destruct (read_value_same (TTDB.ttable st) [] k now) as [Hsame _].
    destruct (read_value (TTDB.ttable st) [] k now) as [[v root'] ps]. simpl in *.
    by apply invariant_root.
Qed.

Lemma numequalto_invariant c st v s now :
  invariant c st → invariant c (TTDB.numequalto st v s now).1.
Proof.
  intros Hinv. unfold TTDB.numequalto.
  destruct (TTDB.transactions st !! s) as [x|] eqn:Hsx.
  - assert (Hs : scoped (TTDBTransaction.timestamp x) x).
    { destruct Hinv as (_ & Hx & _). by destruct (Hx s x Hsx) as (_ & ? & _). }
    destruct (transaction_numequalto_scoped _ x [TTDB.ttable st] v Hs) as [Hs' Hc].
    destruct (TTDBTransaction.numequalto x [TTDB.ttable st] v) as [[n x'] chain].
    simpl in *. inversion Hc as [|? root' ? ps Hroot Hps]; subst.
    inversion Hps; subst. simpl.
    apply (invariant_update c (TTDB.Build root' _ _) s x); [|done|done].
    by apply invariant_root.
  - destruct (read_index_same (TTDB.ttable st) [] v now) as [Hsame _].
    destruct (read_index (TTDB.ttable st) [] v now) as [[n root'] ps]. simpl in *.
    by apply invariant_root.
Qed.

Lemma sorted_snoc {V} (its : list (V * Z)) x c now :
  StronglySorted (λ x y : V * Z, x.2 < y.2) its →
  Forall (λ it : V * Z, it.2 ≤ c) its → c < now →
  StronglySorted (λ x y : V * Z, x.2 < y.2) (its ++ [(x, now)]).
Proof.
  intros Hs Hall Hlt. induction Hs as [|y r Hs IH Hy]; simpl.
  - repeat constructor.
  - apply Forall_cons in Hall as [Hyc Hall]. constructor; [by apply IH|].
    apply Forall_app. split; [done|]. apply Forall_singleton. simpl. lia.
Qed.

Lemma extends_increasing {V} c now (d d' : gmap string (bucket V)) :
  extends_at now d d' → written_by c d → c < now →
  map_Forall (λ _ b, increasing b) d → map_Forall (λ _ b, increasing b) d'.
Proof.
  intros He Hw Hlt Hs k b' Hb'. unfold increasing.
  destruct (He k) as [Hk|[x Hk]]; rewrite !entries_lookup, Hb' in Hk;
    simpl in Hk; destruct (d !! k) as [b|] eqn:E; simpl in Hk; try done;
    injection Hk as ->.
  - by apply (Hs k b).
  - apply (sorted_snoc _ _ c); [by apply (Hs k b)|by apply (Hw k b)|done].
  - repeat constructor.
Qed.

Lemma write_invariant c st k v abort s now st' sent :
  invariant c st →
  (TTDB.transactions st = ∅ → c < now) →
  TTDB.write st k v abort s now = Some (st', sent) →
  invariant (if bool_decide (TTDB.transactions st = ∅) then now else c) st'.
Proof.
  intros Hinv Hlt. unfold TTDB.write.
  destruct (TTDB.transactions st !! s) as [x|] eqn:Hsx.
  - rewrite bool_decide_eq_false_2
      by (intros E; by rewrite E, lookup_empty in Hsx).
    assert (Hs : scoped (TTDBTransaction.timestamp x) x).
    { destruct Hinv as (_ & Hx & _). by destruct (Hx s x Hsx) as (_ & ? & _). }
    destruct (transaction_write_scoped _ x [TTDB.ttable st] k v Hs)
      as (x' & chain & -> & Hs' & Hc).
    simpl. intros [= <- <-]. inversion Hc as [|? root' ? ps Hroot Hps]; subst.
    inversion Hps; subst. simpl.
    apply (invariant_update c (TTDB.Build root' _ _) s x); [|done|done].
    by apply invariant_root.
  - destruct (0 <? size (TTDB.transactions st))%nat eqn:Esz; simpl.
    + intros [= <- <-]. rewrite bool_decide_eq_false_2; [done|].
      intros E. rewrite E, map_size_empty in Esz. done.
    + apply Nat.ltb_ge in Esz.
      assert (Hempty : TTDB.transactions st = ∅).
      { apply map_size_empty_inv. lia. }
      rewrite bool_decide_eq_true_2 by done. specialize (Hlt Hempty).
      destruct Hinv as ((Hap & Hf & [Hs1 Hs2] & Hw1 & Hw2) & _ & _).
      destruct (write_value_root (TTDB.ttable st) k v now Hap Hf)
        as (root' & -> & Hap' & Hf' & Hw1' & Hw2' & He & _ & Hext).
      { apply (written_by_mono _ c); [lia|done]. }
      { apply (written_by_mono _ c); [lia|done]. }
      simpl. intros [= <- <-]. split; [|split].
      * split; [done|]. split; [done|]. split; [|done]. split.
        -- apply (extends_increasing c now (table (TTDB.ttable st))); try done.
           by eapply extends_at_one.
        -- by apply (extends_increasing c now (index (TTDB.ttable st))).
      * intros s' y Hy. simpl in Hy. by rewrite Hempty, lookup_empty in Hy.
      * intros s1 s2 x1 x2 _ H1. simpl in H1. by rewrite Hempty, lookup_empty in H1.
Qed.

Lemma commit_invariant c st s st' sent :
  invariant c st → TTDB.commit st s = Some (st', sent) → invariant c st'.
Proof.
  intros Hinv. unfold TTDB.commit.
  destruct (TTDB.transactions st !! s) as [x|] eqn:Hsx; [|by intros [= <- <-]].
  destruct (min_list (TTDB.timestamps st)) as [m|]; simpl; [|done].
  destruct (TTDBTransaction.timestamp x >? m).
  { intros [= <- <-]. by apply invariant_delete. }
  destruct (TTDBTransaction.commit x (TTDB.ttable st)) as [[ok root']|] eqn:E;
    simpl; [|done].
  intros [= <- <-]. destruct ok.
  - destruct Hinv as (Hroot & Hx & Hd).
    destruct (Hx s x Hsx) as (HT & Hs & Hu).
    destruct (commit_root_ok c _ x _ root' Hroot Hs HT Hu E) as [Hroot' Hu'].
    split; [done|]. split.
    + intros s' y Hy. simpl in Hy. apply lookup_delete_Some in Hy as [Hne Hy].
      destruct (Hx s' y Hy) as (? & ? & ?). split; [done|]. split; [done|].
      apply Hu'; [|done]. by apply (Hd s' s y x).
    + intros s1 s2 x1 x2 Hne H1 H2. simpl in *.
      apply lookup_delete_Some in H1 as [_ H1].
      apply lookup_delete_Some in H2 as [_ H2]. by apply (Hd s1 s2).
  - apply transaction_commit_false in E. subst root'. by apply invariant_delete.
Qed.

Lemma purge_invariant c st now st' :
  invariant c st → TTDB.purge st now = Some st' → invariant c st'.
Proof.
  intros (Hroot & Hx & Hd). unfold TTDB.purge.
  destruct (min_list (TTDB.timestamps st ++ [now])) as [h|]; simpl; [|done].
  intros [= <-]. split; [by apply root_ok_purge|]. split; [|done].
  intros s x Hsx. simpl in *. destruct (Hx s x Hsx) as (? & ? & ?).
  split; [done|]. split; [done|]. by apply unused_purge.
Qed.

Lemma dispatch_invariant c st datum s now st' sent :
  invariant c st →
  (mints_tokens st datum s = true → c < now) →
  TTDB.dispatch st datum s now = Some (st', sent) →
  invariant (if mints_tokens st datum s then now else c) st'.
Proof.
  intros Hinv Hlt. unfold TTDB.dispatch. destruct datum as [|verb args]; [done|].
  repeat match goal with
         | |- context [if ?b && ?b' then _ else _] =>
             let E := fresh "E" in destruct (b && b') eqn:E
         end;
    repeat match goal with
           | H : _ && _ = true |- _ =>
               apply andb_prop in H
                 as [?%bool_decide_eq_true ?%bool_decide_eq_true]
           end;
    destruct args as [|a1 [|a2 [|a3 args]]]; simplify_eq/=.
  - (* SET *)
    intros H. apply (write_invariant c) in H; [done|done|].
    intros E. apply Hlt. by rewrite bool_decide_eq_true_2.
  - (* GET *)
    intros [= H]. apply (f_equal fst) in H. simpl in H. subst st'.
    by apply get_invariant.
  - (* UNSET *)
    intros H. apply (write_invariant c) in H; [done|done|].
    intros E. apply Hlt. by rewrite bool_decide_eq_true_2.
  - (* NUMEQUALTO *)
    intros [= H]. apply (f_equal fst) in H. simpl in H. subst st'.
    by apply numequalto_invariant.
  - (* BEGIN *)
    intros [= H]. apply (f_equal fst) in H. simpl in H. subst st'.
    apply begin_invariant; [done|]. intros E. apply Hlt.
    by rewrite bool_decide_eq_true_2.
  - (* ROLLBACK *)
    intros [= H]. apply (f_equal fst) in H. simpl in H. subst st'.
    by apply rollback_invariant.
  - (* COMMIT *)
    intros H. by eapply commit_invariant.
  - (* RESET *)
    intros [= <- <-]. apply invariant_reset.
  - (* DEBUG *)
    by intros [= <- <-].
  - rewrite andb_true_r in E3. rewrite E3. by intros [= <- <-].
  - rewrite andb_true_r in E1. rewrite E1. by intros [= <- <-].
  - rewrite andb_true_r in E. rewrite E. by intros [= <- <-].
  - by intros [= <- <-].
Qed.

Lemma step_invariant c st ev now st' :
  invariant c st →
  (mints st ev = true → c < now) →
  step st ev now = Some st' →
  invariant (if mints st ev then now else c) st'.
Proof.
  intros Hinv Hlt. destruct ev as [s datum|s|]; simpl in *.
  - unfold TTDB.handle.
    destruct (bool_decide (String.length datum = 0%nat)) eqn:Elen.
    + apply bool_decide_eq_true in Elen. destruct datum; [|done].
      by intros [= <-].
    + destruct (TTDB.dispatch st (String.words datum) s now) as [[st1 sent]|] eqn:E;
        simpl; [|done].
      intros [= <-]. by eapply dispatch_invariant.
  - intros [= <-]. by apply invariant_delete.
  - intros H. by eapply purge_invariant.
Qed.

Lemma run_invariant trace c st st' :
  invariant c st → StronglySorted Z.lt (c :: minted trace st) →
  run trace st = Some st' → ∃ c', invariant c' st'.
Proof.
  unfold run. revert c st. induction trace as [|[ev now] trace IH];
    intros c st Hinv Hs; simpl.
  - intros [= <-]. by exists c.
  - simpl in Hs. destruct (step st ev now) as [st1|] eqn:E; simpl; [|done].
    assert (Hstep := step_invariant c st ev now st1 Hinv).
    destruct (mints st ev); simpl in Hs.
    + apply StronglySorted_inv in Hs as [Hs Hall].
      apply Forall_cons in Hall as [Hlt _].
      apply (IH now st1); [by apply Hstep|done].
    + apply (IH c st1); [by apply Hstep|done].
Qed.

(** ** Buckets are strictly increasing *)

Lemma single_at_increasing {V} T (b : bucket V) : single_at T b → increasing b.
Proof.
  intros H. destruct (single_at_items T b H) as [v Hv]. unfold increasing.
  rewrite Hv. repeat constructor.
Qed.

(** C7: start the server and let it run through any sequence of steps of
    its loop (a piece of received data, a closed connection, a purge),
    each with its reading of the clock.  If every stamp that is minted
    (by a BEGIN that opens the outer scope of a session, or by a SET or
    UNSET that writes to the root) is strictly greater than all the
    stamps minted before it, then in the state that is reached the entries
    of every bucket of the table and of the index of the root, and of
    every scope of every session, are strictly increasing in write
    stamp. *)
Theorem buckets_strictly_increasing (trace : list (event * Z))
    (purge_period now0 : Z) (st : TTDB.t) :
  StronglySorted Z.lt (minted trace (TTDB.init purge_period now0)) →
  run trace (TTDB.init purge_period now0) = Some st →
  sorted_table (TTDB.ttable st)
  ∧ ∀ s x tab, TTDB.transactions st !! s = Some x → tab ∈ scopes x →
               sorted_table tab.
Proof.
  intros Hs Hrun.
  assert (Hc : ∃ c, StronglySorted Z.lt
                      (c :: minted trace (TTDB.init purge_period now0))).
  { destruct (minted trace (TTDB.init purge_period now0)) as [|m l];
      [exists 0; repeat constructor|].
    exists (m - 1). constructor; [done|].
    apply StronglySorted_inv in Hs as [_ Hall].
    apply Forall_cons. split; [lia|].
    eapply Forall_impl; [exact Hall|]. simpl. intros. lia. }
  destruct Hc as [c Hc].
  destruct (run_invariant trace c _ st (invariant_reset c now0 _ _) Hc Hrun)
    as (c' & (_ & _ & Hsorted & _) & Hx & _).
  split; [done|]. intros s x tab Hsx Htab.
  destruct (Hx s x Hsx) as (_ & Hscoped & _). apply scoped_scopes in Hscoped.
  rewrite Forall_forall in Hscoped. destruct (Hscoped tab Htab) as (_ & Ht & Hi).
  split; intros k b Hb; eapply single_at_increasing; [by apply (Ht k)|by apply (Hi k)].
Qed.

Lemma buckets_strictly_increasing_witness :
  StronglySorted Z.lt (minted nested_trace (TTDB.init 20 0))
  ∧ run nested_trace (TTDB.init 20 0) = Some nested_state
  ∧ sorted_table (TTDB.ttable nested_state).
Proof.
  assert (H1 : StronglySorted Z.lt (minted nested_trace (TTDB.init 20 0)))
    by (vm_compute; repeat constructor).
  assert (H2 : run nested_trace (TTDB.init 20 0) = Some nested_state)
    by (vm_compute; reflexivity).
  split; [exact H1|split; [exact H2|]].
  exact (proj1 (buckets_strictly_increasing nested_trace 20 0 nested_state H1 H2)).
Defined.

(** Without the strict order of the minted stamps the property is lost:
    two direct writes of one key at the same reading leave two entries of
    equal stamp. *)
Lemma tie_breaks_order :
  ∃ st, run [(Datum 1 "SET a 1", 1); (Datum 1 "SET a 2", 1)] (TTDB.init 20 0)
        = Some st
        ∧ minted [(Datum 1 "SET a 1", 1); (Datum 1 "SET a 2", 1)] (TTDB.init 20 0)
          = [1; 1]
        ∧ items <$> table (TTDB.ttable st) !! "a"
          = Some [(Some "1", 1); (Some "2", 1)]
        ∧ ¬ sorted_table (TTDB.ttable st).
Proof.
  eexists. split; [vm_compute; reflexivity|]. split; [vm_compute; reflexivity|].
  split; [reflexivity|].
  intros [H _]. specialize (H "a" _ eq_refl). unfold increasing in H. simpl in H.
  apply StronglySorted_inv in H as [_ H]. apply Forall_cons in H as [H _].
  simpl in H. lia.
Qed.

(** ** The concrete states are states of the program *)

Lemma one_key_reached :
  run [(Datum 1 "SET a 0", 1)] (TTDB.init 20 0) = Some one_key.
Proof. vm_compute. reflexivity. Qed.

Lemma two_open_reached :
  run [(Datum 1 "SET a 0", 1); (Datum 1 "BEGIN", 2); (Datum 2 "BEGIN", 4);
       (Datum 2 "SET b 0", 5)] (TTDB.init 20 0)
  = Some two_open.
Proof. vm_compute. reflexivity. Qed.

Lemma two_versions_reached :
  root_run [(Write "a" (Some "x"), 1); (Write "a" (Some "y"), 10)]
           (TTDBTable.init false None 20 0)
  = Some two_versions.
Proof. vm_compute. reflexivity. Qed.

(** * Further properties of the engine *)

(** ** Buckets in write order *)

Section ordered.
Context {V : Type}.
Implicit Types (d : gmap string (bucket V)) (its : list (V * Z)).


Lemma filter_earlier_all its t :
  Forall (λ it : V * Z, it.2 ≤ t) its →
  filter (λ it : V * Z, it.2 ≤ t) its = its.
Proof.
  induction 1 as [|y r Hy _ IH]; [done|].
  rewrite filter_cons_True by done. by rewrite IH.
Qed.

Lemma filter_earlier_none its t :
  Forall (λ it : V * Z, it.2 ≤ t) its →
  filter (λ it : V * Z, t < it.2) its = [].
Proof.
  induction 1 as [|y r Hy _ IH]; [done|].
  by rewrite filter_cons_False by (simpl in *; lia).
Qed.





End ordered.







(** ** Reads after writes *)




Lemma read_index_hit self parents v t rp :
  (__read_item (index self) v t).1 = Some rp →
  (read_index self parents v t).1.1 = rp.1.
Proof.
  intros H. destruct parents as [|p ps]; simpl;
    destruct (__read_item (index self) v t) as [[rp'|] ix]; simpl in *;
    by simplify_eq.
Qed.


Lemma Forall2_same_entries_refl ps : Forall2 same_entries ps ps.
Proof. induction ps; constructor; [apply same_entries_refl|done]. Qed.















(** ** What the other sessions see *)

(** ** Reads depend on the entries only *)







(** ** The enclosing tables keep their entries *)






(** ** Handlers that touch the caller's transaction only *)










(** ** BEGIN and ROLLBACK *)







(** ** What a purge removes *)








(** ** The server does not raise *)

























(** ** Pieces without a token *)





(** ** The root never runs ahead of a live transaction *)


















(** ** A purge behind the horizon *)








(** ** What a transaction reads from the root *)






